(** * understruct: a shallow embedding of the service backbone, the interface
    matcher and the IPC message protocol, with the properties proved of them.

    Sources embedded here:
    - [lib/interface-def.js]            (module [InterfaceDef])
    - the backbone, class [App] with [readArgNames], [load], [start]
                                        (module [Backbone])
    - [lib/app.js], the older copy of [start]
                                        (module [AppJs])
    - [lib/ipc/client.js]               (module [IpcClient])
    - [lib/ipc/server.js]               (module [IpcServer]) *)

From Stdlib Require Import ZArith List String Ascii Bool Lia.
From stdpp Require Import base tactics option list strings pretty gmap.

Set Warnings "-register-all,-clear-no-such-hyp".

(** ** What is shared: errors and completions *)

Module JS.

(** The exceptions the embedded code can raise.  [NativeTypeError] is the
    [TypeError] the engine itself raises (a property read on [null] or
    [undefined], a call of something that is no function); its message is the
    engine's and is not modelled.  [AssertionError] is what Node's [assert]
    raises, with the message it was given.  The other three are built by the
    code, or by the engine for an identifier that no scope declares. *)
Inductive JSError : Type :=
| NativeTypeError
| TypeError (msg : string)
| ReferenceError (ident : string)
| Error (msg : string)
| AssertionError (msg : string).

(** How an evaluation ends.  [Stuck] is not a JavaScript outcome: it is what a
    depth-bounded definition of this file answers when its bound is used up. *)
Inductive Completion (A : Type) : Type :=
| Normal (a : A)
| Throw (e : JSError)
| Stuck.

Arguments Normal {A} a.
Arguments Throw {A} e.
Arguments Stuck {A}.

Definition cbind {A B : Type} (c : Completion A) (k : A -> Completion B) : Completion B :=
  match c with
  | Normal a => k a
  | Throw e => Throw e
  | Stuck => Stuck
  end.

(** [arr.map(f)] where [f] may throw: left to right, the first failure wins. *)
Fixpoint map_completion {A B : Type} (f : A -> Completion B) (l : list A) : Completion (list B) :=
  match l with
  | [] => Normal []
  | x :: l' => cbind (f x) (fun y => cbind (map_completion f l') (fun ys => Normal (y :: ys)))
  end.

(** The own properties every object inherits from [Object.prototype]. *)
Definition ObjectPrototype_names : list string :=
  [ "constructor"; "__defineGetter__"; "__defineSetter__"; "hasOwnProperty";
    "__lookupGetter__"; "__lookupSetter__"; "isPrototypeOf";
    "propertyIsEnumerable"; "toString"; "valueOf"; "__proto__";
    "toLocaleString" ].

Definition inherited (name : string) : bool :=
  existsb (String.eqb name) ObjectPrototype_names.

End JS.

Export JS.

Global Instance Completion_ret : MRet Completion := @Normal.
Global Instance Completion_bind : MBind Completion :=
  fun A B k c => cbind c k.

(** ** lib/interface-def.js *)

Module InterfaceDef.

(** *** Candidate values

    A candidate is modelled by what a compiled predicate can observe of it:
    whether it is [undefined] or [null] (a property read then throws), its
    [typeof], what [Array.isArray] says, and what reading a property yields
    (own or inherited: [get] is the object's whole [[Get]], for data
    properties). *)

Inductive TypeOf : Type :=
| TyObject | TyFunction | TyString | TyNumber | TyBoolean | TySymbol | TyBigint.

Inductive Value : Type :=
| Undefined
| Null
| Val (ty : TypeOf) (isArray : bool) (get : string -> Value).

Definition typeof (v : Value) : string :=
  match v with
  | Undefined => "undefined"
  | Null => "object"
  | Val TyObject _ _ => "object"
  | Val TyFunction _ _ => "function"
  | Val TyString _ _ => "string"
  | Val TyNumber _ _ => "number"
  | Val TyBoolean _ _ => "boolean"
  | Val TySymbol _ _ => "symbol"
  | Val TyBigint _ _ => "bigint"
  end.

Definition Array_isArray (v : Value) : bool :=
  match v with
  | Val _ isArray _ => isArray
  | _ => false
  end.

(** [obj[name]] *)
Definition get_prop (obj : Value) (name : string) : Completion Value :=
  match obj with
  | Undefined | Null => Throw NativeTypeError
  | Val _ _ get => Normal (get name)
  end.

Definition is_undefined (v : Value) : bool :=
  match v with
  | Undefined => true
  | _ => false
  end.

(** [const Tests = { 'function': ..., 'object': ..., ... }] *)
Definition Tests : list (string * (Value -> bool)) :=
  [ ("function", fun value => String.eqb (typeof value) "function");
    ("object",   fun value => String.eqb (typeof value) "object");
    ("array",    fun value => Array_isArray value);
    ("string",   fun value => String.eqb (typeof value) "string");
    ("number",   fun value => String.eqb (typeof value) "number");
    ("boolean",  fun value => String.eqb (typeof value) "boolean") ].

(** [Tests[type]], on the table's own entries.  A tag that names a member
    inherited from [Object.prototype] (['constructor'], ['toString'], ...) is
    outside the model: there the code finds the inherited member, not
    [undefined]. *)
Definition Tests_get (type : string) : option (Value -> bool) :=
  snd <$> find (fun entry => String.eqb (fst entry) type) Tests.

(** *** Interface definitions

    The values [compile] can be given: a list of property names, an object
    from property names to types (a type is a tag string or a nested
    definition), an already compiled predicate, or anything else.  [DObj]
    lists the own enumerable properties in [Object.keys] order.  [DIfTest] is
    the function [iftest] that [compile] builds, with its [tests] array; each
    test is the closure [obj => isa( obj[name] )]. *)

Inductive IfDef : Type :=
| DUndefined
| DNull
| DBool (b : bool)
| DNum (n : Z)
| DStr (s : string)
| DArr (items : list string)
| DObj (props : list (string * IfDef))
| DIfTest (tests : list (string * Isa))
with Isa : Type :=
| IsaTest (isa : Value -> bool)      (* an entry of [Tests] *)
| IsaNested (isa : IfDef).           (* [obj => obj !== undefined && isa( obj )] *)

Definition truthy (d : IfDef) : bool :=
  match d with
  | DUndefined | DNull => false
  | DBool b => b
  | DNum n => negb (n =? 0)%Z
  | DStr s => negb (String.eqb s "")
  | DArr _ | DObj _ | DIfTest _ => true
  end.

Definition keys {V : Type} (props : list (string * V)) : list string := map fst props.

(** [props[name]] on own properties. *)
Fixpoint obj_get (props : list (string * IfDef)) (name : string) : IfDef :=
  match props with
  | [] => DUndefined
  | (k, v) :: rest => if String.eqb k name then v else obj_get rest name
  end.

(** Own property order: array indices first, ascending, then the other
    names in the order they were added. *)
Definition is_digit (c : ascii) : bool :=
  (48 <=? nat_of_ascii c) && (nat_of_ascii c <=? 57).

Fixpoint digits_value (s : string) (acc : N) : option N :=
  match s with
  | EmptyString => Some acc
  | String c s' =>
      if is_digit c
      then digits_value s' (acc * 10 + N.of_nat (nat_of_ascii c - 48))%N
      else None
  end.

Definition array_index (s : string) : option N :=
  match s with
  | EmptyString => None
  | String c rest =>
      if Ascii.eqb c "0" && negb (String.eqb rest "") then None
      else match digits_value s 0 with
           | Some n => if (n <? 4294967295)%N then Some n else None
           | None => None
           end
  end.

Fixpoint insert_index (n : N) (k : string) (v : IfDef) (props : list (string * IfDef))
  : list (string * IfDef) :=
  match props with
  | [] => [(k, v)]
  | (k', v') :: rest =>
      match array_index k' with
      | Some m => if (n <? m)%N then (k, v) :: props else (k', v') :: insert_index n k v rest
      | None => (k, v) :: props
      end
  end.

Fixpoint replace_value (k : string) (v : IfDef) (props : list (string * IfDef))
  : list (string * IfDef) :=
  match props with
  | [] => []
  | (k', v') :: rest =>
      if String.eqb k' k then (k', v) :: rest else (k', v') :: replace_value k v rest
  end.

(** [props[k] = v] for an own data property. *)
Definition obj_set (props : list (string * IfDef)) (k : string) (v : IfDef)
  : list (string * IfDef) :=
  if existsb (String.eqb k) (keys props) then replace_value k v props
  else match array_index k with
       | Some n => insert_index n k v props
       | None => props ++ [(k, v)]
       end.

(** [ifdef.reduce( ( def, item ) => { def[item] = 'object'; return def; }, {})].
    An assignment to [__proto__] reaches the setter inherited from
    [Object.prototype], which ignores a string. *)
Definition array_to_object (items : list string) : list (string * IfDef) :=
  fold_left
    (fun def item =>
       if String.eqb item "__proto__" then def else obj_set def item (DStr "object"))
    items [].

(** [ifdef.__IsIFDef] *)
Definition get_marker (ifdef : IfDef) : Completion IfDef :=
  match ifdef with
  | DUndefined | DNull => Throw NativeTypeError
  | DObj props => Normal (obj_get props "__IsIFDef")
  | DIfTest _ => Normal (DBool true)
  | _ => Normal DUndefined
  end.

(** [function test( type, name )], with the [compile] it calls for a nested
    type as a parameter. *)
Definition test (compile : IfDef -> Completion IfDef) (type : IfDef) (name : string)
  : Completion Isa :=
  match type with
  | DStr s =>
      match Tests_get s with
      | Some isa => Normal (IsaTest isa)
      | None =>
          Throw (Error ("Unsupported type '" +:+ s +:+ "' for property '" +:+ name +:+ "'"))
      end
  | _ => isa ← compile type; Normal (IsaNested isa)
  end.

(** The body of [function compile( ifdef )]. *)
Definition compile_body (compile : IfDef -> Completion IfDef) (ifdef : IfDef)
  : Completion IfDef :=
  marker ← get_marker ifdef;
  if truthy marker then Normal ifdef
  else
    props ← match ifdef with
            | DArr items => Normal (array_to_object items)
            | DObj props => Normal props
            | _ => Throw (Error "Bad interface definition")
            end;
    tests ← map_completion
              (fun name =>
                 let type := obj_get props name in
                 isa ← test compile type name;
                 Normal (name, isa))
              (keys props);
    Normal (DIfTest tests).

(** [compile] calls itself on nested types only: the recursion is tied at the
    nesting depth of the definition. *)
Fixpoint compile_n (n : nat) (ifdef : IfDef) : Completion IfDef :=
  match n with
  | O => Stuck
  | S n' => compile_body (compile_n n') ifdef
  end.

Fixpoint depth (d : IfDef) : nat :=
  match d with
  | DObj props =>
      S ((fix deepest (ps : list (string * IfDef)) : nat :=
            match ps with
            | [] => O
            | (_, t) :: ps' => Nat.max (depth t) (deepest ps')
            end) props)
  | _ => O
  end.

Definition compile (ifdef : IfDef) : Completion IfDef :=
  compile_n (S (depth ifdef)) ifdef.

(** Calling what [compile] returned: [iftest( obj )], that is
    [tests.reduce( ( ok, test ) => (ok && test( obj )), true )]; anything
    but a function cannot be called. *)
Fixpoint call (f : IfDef) (obj : Value) {struct f} : Completion bool :=
  match f with
  | DIfTest tests =>
      (fix reduce (ts : list (string * Isa)) (ok : bool) {struct ts} : Completion bool :=
         match ts with
         | [] => Normal ok
         | (name, isa) :: ts' =>
             r ← (if ok then v ← get_prop obj name; call_isa isa v else Normal false);
             reduce ts' r
         end) tests true
  | _ => Throw NativeTypeError
  end
with call_isa (isa : Isa) (v : Value) {struct isa} : Completion bool :=
  match isa with
  | IsaTest t => Normal (t v)
  | IsaNested f => if is_undefined v then Normal false else call f v
  end.

(** [const iftest = InterfaceDef.compile( ifdef ); ... iftest( service )] *)
Definition conforms (ifdef : IfDef) (obj : Value) : Completion bool :=
  iftest ← compile ifdef; call iftest obj.

(** Does a definition declare a property, as one reads it: a list that
    holds a name other than [__proto__], an object with an own property, a
    compiled predicate with a test. *)
Definition declares_a_property (ifdef : IfDef) : bool :=
  match ifdef with
  | DArr items => existsb (fun name => negb (String.eqb name "__proto__")) items
  | DObj props => match props with [] => false | _ :: _ => true end
  | DIfTest tests => match tests with [] => false | _ :: _ => true end
  | _ => false
  end.

End InterfaceDef.

(** ** The backbone: class [App], [readArgNames], [load], [start] *)

Module Backbone.

(** *** Values

    What can be bound to the backbone as a service.  An object is known by
    its identity, by whether it is an [instanceof EventEmitter], and by the
    names of the functions it carries as own properties.  [VInherited] is a
    member of [Object.prototype], which a read of the plain object
    [app.services] finds under names such as ['constructor']. *)

Inductive Value : Type :=
| VUndefined
| VNull
| VBool (b : bool)
| VNum (n : Z)
| VStr (s : string)
| VObject (id : nat) (isEventEmitter : bool) (methods : list string)
| VInherited (member : string).

Definition is_undefined (v : Value) : bool :=
  match v with
  | VUndefined => true
  | _ => false
  end.

(** [source instanceof EventEmitter] *)
Definition instanceof_EventEmitter (v : Value) : bool :=
  match v with
  | VObject _ isEventEmitter _ => isEventEmitter
  | _ => false
  end.

(** [typeof source[method] === 'function']: an [EventEmitter] inherits [on]
    and [once]. *)
Definition has_method (v : Value) (method : string) : bool :=
  match v with
  | VObject _ isEventEmitter methods =>
      (isEventEmitter && (String.eqb method "on" || String.eqb method "once"))
      || existsb (String.eqb method) methods
  | _ => false
  end.

(** ['on'] or ['once'] *)
Inductive Method : Type := On | Once.

Definition method_name (m : Method) : string :=
  match m with
  | On => "on"
  | Once => "once"
  end.

(** *** Functions

    The functions that reach the backbone, as closures with their captured
    variables.  [UserFn] is a function of the caller; a call of it is
    recorded, and it is taken to return without calling back into the
    backbone.  [BindHandler] is the arrow function [handler] of
    [onServiceBind]; [hid] is its identity, two calls of [onServiceBind] make
    two handlers.  [RetryListener] is the arrow function that
    [_addEventListener] hands to [onServiceBind].  [OnceWrapper] is the
    function that Node's [once] puts in the place of the listener
    ([_onceWrap]): [wid] is its identity, [type] the event name [once] was
    given, [fired] the flag of its state object. *)

Inductive Fn : Type :=
| UserFn (id : nat)
| BindHandler (hid : nat) (name : string) (callback : Fn) (once : bool)
| RetryListener (eventName : string) (listener : Fn) (method : Method)
| OnceWrapper (wid : nat) (type : string) (listener : Fn) (fired : bool).

(** The ['service-bind'] event, [{ name, service }]. *)
Record Event : Type := { ev_name : string; ev_service : Value }.

(** What the backbone did to the outside: it called a function of the caller
    with an event, or it called [source[method]( eventName, listener )]. *)
Inductive Call : Type :=
| Called (fn : nat) (event : Event)
| MethodCalled (source : Value) (method : Method) (eventName : string) (listener : Fn).

(** The backbone object: [this.services], the listener arrays of the
    [EventEmitter] it extends, a counter for identities, and the record of
    the calls made so far (oldest first). *)
Record App : Type := {
  services : gmap string Value;
  listeners : gmap string (list Fn);
  next_id : nat;
  calls : list Call
}.

(** [new App()] *)
Definition new_App : App :=
  {| services := ∅; listeners := ∅; next_id := 0; calls := [] |}.

Definition Method_eq_dec (a b : Method) : {a = b} + {a <> b}.
Proof. decide equality. Defined.

Definition Fn_eq_dec (f g : Fn) : {f = g} + {f <> g}.
Proof.
  revert g. induction f; intros g; destruct g; try (right; discriminate).
  - destruct (Nat.eq_dec id id0); [left; congruence | right; congruence].
  - destruct (Nat.eq_dec hid hid0); [|right; congruence].
    destruct (string_dec name name0); [|right; congruence].
    destruct (IHf g); [|right; congruence].
    destruct (bool_dec once once0); [left; congruence | right; congruence].
  - destruct (string_dec eventName eventName0); [|right; congruence].
    destruct (IHf g); [|right; congruence].
    destruct (Method_eq_dec method method0); [left; congruence | right; congruence].
  - destruct (Nat.eq_dec wid wid0); [|right; congruence].
    destruct (string_dec type type0); [|right; congruence].
    destruct (IHf g); [|right; congruence].
    destruct (bool_dec fired fired0); [left; congruence | right; congruence].
Defined.

Definition Fn_eqb (f g : Fn) : bool := if Fn_eq_dec f g then true else false.

(** *** State and exceptions *)

Definition M (A : Type) : Type := App -> Completion A * App.

Definition ret {A : Type} (a : A) : M A := fun app => (Normal a, app).

Definition throw {A : Type} (e : JSError) : M A := fun app => (Throw e, app).

Definition stuck {A : Type} : M A := fun app => (Stuck, app).

Definition bindM {A B : Type} (m : M A) (k : A -> M B) : M B :=
  fun app =>
    match m app with
    | (Normal a, app') => k a app'
    | (Throw e, app') => (Throw e, app')
    | (Stuck, app') => (Stuck, app')
    end.

#[global] Instance M_ret : MRet M := @ret.
#[global] Instance M_bind : MBind M := fun A B k m => bindM m k.

(** *** Reads and writes of the backbone object *)

(** [this.services[name]]: an own property, else what [Object.prototype]
    has under that name, else [undefined]. *)
Definition services_get (app : App) (name : string) : Value :=
  match services app !! name with
  | Some v => v
  | None => if inherited name then VInherited name else VUndefined
  end.

Definition get_service (name : string) : M Value :=
  fun app => (Normal (services_get app name), app).

(** [this.services[name] = service].  Under the name [__proto__] the
    assignment reaches the setter inherited from [Object.prototype] and makes
    no own property; that it re-parents [services] when [service] is an object
    is not modelled. *)
Definition set_service (name : string) (service : Value) : M unit :=
  fun app =>
    (Normal tt,
     {| services := if String.eqb name "__proto__" then services app
                    else <[name := service]> (services app);
        listeners := listeners app;
        next_id := next_id app;
        calls := calls app |}).

Definition listeners_of (app : App) (eventName : string) : list Fn :=
  default [] (listeners app !! eventName).

Definition set_listeners (eventName : string) (entries : list Fn) (app : App) : App :=
  {| services := services app;
     listeners := <[eventName := entries]> (listeners app);
     next_id := next_id app;
     calls := calls app |}.

Definition drop_listeners (eventName : string) (app : App) : App :=
  {| services := services app;
     listeners := delete eventName (listeners app);
     next_id := next_id app;
     calls := calls app |}.

Definition record (c : Call) : M unit :=
  fun app =>
    (Normal tt,
     {| services := services app;
        listeners := listeners app;
        next_id := next_id app;
        calls := calls app ++ [c] |}).

Definition fresh : M nat :=
  fun app =>
    (Normal (next_id app),
     {| services := services app;
        listeners := listeners app;
        next_id := S (next_id app);
        calls := calls app |}).

(** *** The [EventEmitter] the backbone extends

    Node's emitter, as far as the backbone uses it: [on] appends to the
    event's array, [removeListener] takes out the latest entry for the
    function, [emit] calls a copy of the array in order, and [once] hands a
    wrapper of the listener to [this.on].  The ['newListener'],
    ['removeListener'] and ['error'] conventions are not modelled. *)

(** [EventEmitter.prototype.on], that is [addListener]. *)
Definition EventEmitter_on (eventName : string) (listener : Fn) : M unit :=
  fun app => (Normal tt, set_listeners eventName (listeners_of app eventName ++ [listener]) app).

(** [list[i] === listener || list[i].listener === listener]: the wrapper of
    [once] carries the function it wraps as its [listener] property. *)
Definition is_entry_for (entry listener : Fn) : bool :=
  Fn_eqb entry listener
  || match entry with
     | OnceWrapper _ _ wrapped _ => Fn_eqb wrapped listener
     | _ => false
     end.

Fixpoint remove_last (listener : Fn) (entries : list Fn) : list Fn :=
  match entries with
  | [] => []
  | entry :: rest =>
      if existsb (fun later => is_entry_for later listener) rest
      then entry :: remove_last listener rest
      else if is_entry_for entry listener then rest
      else entry :: rest
  end.

(** [app.removeListener( eventName, listener )]; an event without
    listeners has no array. *)
Definition removeListener (eventName : string) (listener : Fn) : M unit :=
  fun app =>
    (Normal tt,
     match remove_last listener (listeners_of app eventName) with
     | [] => drop_listeners eventName app
     | entries => set_listeners eventName entries app
     end).

(** [this.fired = true] in the state object of the wrapper [wid]: every
    array that lists the wrapper sees it. *)
Definition fire (wid : nat) (f : Fn) : Fn :=
  match f with
  | OnceWrapper wid' type listener _ =>
      if (wid' =? wid)%nat then OnceWrapper wid' type listener true else f
  | _ => f
  end.

Definition set_fired (wid : nat) : M unit :=
  fun app =>
    (Normal tt,
     {| services := services app;
        listeners := map (fire wid) <$> listeners app;
        next_id := next_id app;
        calls := calls app |}).

(** *** String operations of [_addEventListener] *)

Fixpoint indexOf_from (c : ascii) (s : string) (i : Z) : Z :=
  match s with
  | EmptyString => (-1)%Z
  | String a s' => if Ascii.eqb a c then i else indexOf_from c s' (i + 1)%Z
  end.

(** [s.indexOf( c )] for a one-character needle *)
Definition indexOf (s : string) (c : ascii) : Z := indexOf_from c s 0.

(** [s.substring( 0, idx )] *)
Definition substring_to (s : string) (idx : Z) : string :=
  String.substring 0 (Z.to_nat idx) s.

(** [s.substring( idx )] *)
Definition substring_from (s : string) (idx : Z) : string :=
  String.substring (Z.to_nat idx) (String.length s - Z.to_nat idx) s.

(** *** The methods of [App], with the functions they call as parameters *)

Section Bodies.

Variable call : Fn -> Event -> M unit.
Variable _addEventListener : string -> Fn -> Method -> M unit.
Variable onServiceBind : string -> Fn -> bool -> M unit.

(** Calling a function value with a ['service-bind'] event. *)
Definition call_body (f : Fn) (event : Event) : M unit :=
  match f with
  | UserFn id => record (Called id event)
  | BindHandler hid name callback once =>
      (* event => { if( event.name === name ) { callback( event );
                      if( once ) { app.removeListener('service-bind', handler ); } } } *)
      if String.eqb (ev_name event) name then
        call callback event;;
        if once then removeListener "service-bind" f else mret tt
      else mret tt
  | RetryListener eventName listener method =>
      (* () => { app._addEventListener( eventName, listener, method ); } *)
      _addEventListener eventName listener method
  | OnceWrapper wid type listener fired =>
      (* function onceWrapper() { if( !this.fired ) {
           this.target.removeListener( this.type, this.wrapFn );
           this.fired = true;
           return this.listener.apply( this.target, arguments ); } } *)
      if fired then mret tt
      else
        removeListener type f;;
        set_fired wid;;
        call listener event
  end.

(** [EventEmitter.prototype.once]:
    [this.on( type, _onceWrap( this, type, listener ) )].  The [on] it calls
    is the [on] of the object, which [App] overrides. *)
Definition EventEmitter_once (type : string) (listener : Fn) : M unit :=
  wid ← fresh;
  _addEventListener type (OnceWrapper wid type listener false) On.

(** [_addEventListener( eventName, listener, method )] *)
Definition _addEventListener_body (eventName : string) (listener : Fn) (method : Method)
  : M unit :=
  let idx := indexOf eventName ":" in
  if (0 <? idx)%Z then
    let sourceName := substring_to eventName idx in
    source ← get_service sourceName;
    if is_undefined source then
      onServiceBind sourceName (RetryListener eventName listener method) true
    else if negb (instanceof_EventEmitter source) then
      throw (Error ("Event source must be an EventEmitter: " +:+ sourceName))
    else
      let eventName := substring_from eventName (idx + 1) in
      record (MethodCalled source method eventName listener)
  else
    let eventName := if (idx =? 0)%Z then substring_from eventName 1 else eventName in
    (* super[method]( eventName, listener ) *)
    match method with
    | On => EventEmitter_on eventName listener
    | Once => EventEmitter_once eventName listener
    end.

(** [onServiceBind( name, callback, once = true )].  The two [typeof] checks
    hold by the types of [name] and [callback]. *)
Definition onServiceBind_body (name : string) (callback : Fn) (once : bool) : M unit :=
  service ← get_service name;
  finished ← (if negb (is_undefined service)
              then call callback {| ev_name := name; ev_service := service |};; mret once
              else mret false);
  if (finished : bool) then mret tt
  else
    hid ← fresh;
    let handler := BindHandler hid name callback once in
    (* this.on('service-bind', handler ) *)
    _addEventListener "service-bind" handler On.

End Bodies.

(** The three call each other; the knot is tied at a call depth. *)
Fixpoint call_n (n : nat) (f : Fn) (event : Event) {struct n} : M unit :=
  match n with
  | O => stuck
  | S n' => call_body (call_n n') (_addEventListener_n n') f event
  end
with _addEventListener_n (n : nat) (eventName : string) (listener : Fn) (method : Method)
  {struct n} : M unit :=
  match n with
  | O => stuck
  | S n' =>
      _addEventListener_body (_addEventListener_n n') (onServiceBind_n n')
        eventName listener method
  end
with onServiceBind_n (n : nat) (name : string) (callback : Fn) (once : bool)
  {struct n} : M unit :=
  match n with
  | O => stuck
  | S n' => onServiceBind_body (call_n n') (_addEventListener_n n') name callback once
  end.

(** The depth a call of [_addEventListener] can reach: through [once] to
    [on], to [onServiceBind], to the [on] of its handler. *)
Definition addEventListener_depth : nat := 4.

(** The depth a call of [f] can reach. *)
Fixpoint call_depth (f : Fn) : nat :=
  match f with
  | UserFn _ => 1
  | BindHandler _ _ callback _ => S (call_depth callback)
  | RetryListener _ _ _ => S addEventListener_depth
  | OnceWrapper _ _ listener _ => S (call_depth listener)
  end.

Definition call (f : Fn) (event : Event) : M unit := call_n (call_depth f) f event.

Definition _addEventListener (eventName : string) (listener : Fn) (method : Method) : M unit :=
  _addEventListener_n addEventListener_depth eventName listener method.

Definition onServiceBind (name : string) (callback : Fn) (once : bool) : M unit :=
  onServiceBind_n (S (call_depth callback)) name callback once.

(** [on( eventName, listener )] and [once( eventName, listener )] *)
Definition on (eventName : string) (listener : Fn) : M unit :=
  _addEventListener eventName listener On.

Definition once (eventName : string) (listener : Fn) : M unit :=
  _addEventListener eventName listener Once.

(** [emit( eventName, event )], inherited from [EventEmitter]. *)
Fixpoint run_listeners (snapshot : list Fn) (event : Event) : M unit :=
  match snapshot with
  | [] => mret tt
  | listener :: rest =>
      call listener event;;
      run_listeners rest event
  end.

Definition emit (eventName : string) (event : Event) : M unit :=
  fun app => run_listeners (listeners_of app eventName) event app.

(** [bind( name, service )] *)
Definition bind (name : string) (service : Value) : M unit :=
  set_service name service;;
  emit "service-bind" {| ev_name := name; ev_service := service |}.

(** *** [readArgNames]

    Strings are byte strings here; [\s] and [\w] are read on ASCII. *)

Definition is_space (c : ascii) : bool :=
  let n := nat_of_ascii c in
  (n =? 32) || ((9 <=? n) && (n <=? 13)).

Definition is_word (c : ascii) : bool :=
  let n := nat_of_ascii c in
  ((48 <=? n) && (n <=? 57)) || ((65 <=? n) && (n <=? 90))
  || ((97 <=? n) && (n <=? 122)) || (n =? 95).

Fixpoint skip_while (p : ascii -> bool) (s : string) : string :=
  match s with
  | EmptyString => EmptyString
  | String c s' => if p c then skip_while p s' else s
  end.

Fixpoint take_while (p : ascii -> bool) (s : string) : string :=
  match s with
  | EmptyString => EmptyString
  | String c s' => if p c then String c (take_while p s') else EmptyString
  end.

Fixpoint strip_prefix (prefix s : string) : option string :=
  match prefix, s with
  | EmptyString, _ => Some s
  | String a prefix', String b s' => if Ascii.eqb a b then strip_prefix prefix' s' else None
  | String _ _, EmptyString => None
  end.

(** [\s*\(([^)]+)], at the start of [s]: the captured group. *)
Definition match_arg_list (s : string) : option string :=
  match skip_while is_space s with
  | String c rest =>
      if Ascii.eqb c "(" then
        let args := take_while (fun c => negb (Ascii.eqb c ")")) rest in
        if String.eqb args "" then None else Some args
      else None
  | EmptyString => None
  end.

(** [(?:\s+\w+)] at the start of [s]: what follows it.  Each of the two
    repetitions is followed by a character outside its class, so the longest
    match is the only one after which the rest of the pattern can match. *)
Definition match_function_name (s : string) : option string :=
  let s1 := skip_while is_space s in
  let s2 := skip_while is_word s1 in
  if (String.length s1 <? String.length s)%nat && (String.length s2 <? String.length s1)%nat
  then Some s2 else None.

(** [/^(?:function(?:\s+\w+)?)?\s*\(([^)]+)/.exec( src )]: group 1.  The
    alternatives are tried in the order of the engine: with [function] and a
    name, with [function] alone, without [function]. *)
Definition exec_function_args (src : string) : option string :=
  let without_function := match_arg_list src in
  match strip_prefix "function" src with
  | Some rest =>
      let without_name := match_arg_list rest in
      let with_name :=
        match match_function_name rest with
        | Some rest' => match_arg_list rest'
        | None => None
        end in
      match with_name, without_name with
      | Some r, _ => Some r
      | None, Some r => Some r
      | None, None => without_function
      end
  | None => without_function
  end.

(** [s.split( c )] for a one-character separator *)
Fixpoint split (c : ascii) (s : string) : list string :=
  match s with
  | EmptyString => [EmptyString]
  | String a s' =>
      if Ascii.eqb a c then EmptyString :: split c s'
      else match split c s' with
           | part :: parts => String a part :: parts
           | [] => [String a EmptyString]
           end
  end.

(** [s.trim()] *)
Definition trim (s : string) : string :=
  String.rev (skip_while is_space (String.rev (skip_while is_space s))).

(** What [def.apply( app, args )] hands to the [await] in [load]: a value
    that is no promise, or a promise that fulfils or rejects [after] so many
    turns. *)
Inductive Awaited : Type :=
| Immediately (v : Value)
| Fulfils (after : nat) (v : Value)
| Rejects (after : nat) (e : JSError).

(** A factory function: its source text, and what a call [def.apply( app,
    args )] does.  The call runs with the backbone as [this], so it is a
    computation on the backbone, which may throw. *)
Record Factory : Type := { source : string; apply : list Value -> M Awaited }.

(** A value with a [toString()]: a string is its own text, a function its
    source text. *)
Inductive Stringable : Type :=
| OfString (s : string)
| OfFunction (f : Factory).

Definition toString (x : Stringable) : string :=
  match x with
  | OfString s => s
  | OfFunction f => source f
  end.

(** Reading an identifier that no enclosing function, nor the module, nor
    Node's global object declares. *)
Definition undeclared {A : Type} (ident : string) : Completion A :=
  Throw (ReferenceError ident).

(** [function readArgNames( fn, name )].  When the first pattern does not
    match, the next statement reads [fns], which is declared nowhere; the
    statements after it are never reached. *)
Definition readArgNames (fn : Stringable) (name : Stringable) : Completion (list string) :=
  let src := toString fn in
  match exec_function_args src with
  | Some r1 => Normal (map trim (split "," r1))
  | None => undeclared "fns"
  end.

(** *** [load] *)

(** A service definition: the service itself, or ([typeof def === 'function'])
    a factory. *)
Inductive Def : Type :=
| DefValue (v : Value)
| DefFunction (f : Factory).

(** A promise, by when it settles and how. *)
Record Promise : Type := { settles_at : nat; outcome : Completion Value }.

Definition lift {A : Type} (c : Completion A) : M A := fun app => (c, app).

Fixpoint map_M {A B : Type} (f : A -> M B) (l : list A) : M (list B) :=
  match l with
  | [] => mret []
  | x :: l' => y ← f x; ys ← map_M f l'; mret (y :: ys)
  end.

(** The synchronous part of [load] for a factory, up to the [await]. *)
Definition load_factory (name : string) (def : Factory) : M Awaited :=
  argNames ← lift (readArgNames (OfString name) (OfFunction def));
  args ← map_M
           (fun argName =>
              arg ← get_service argName;
              if is_undefined arg then
                throw (Error ("Unresolved dependency: '" +:+ argName +:+ "' for '"
                              +:+ name +:+ "'"))
              else mret arg)
           argNames;
  apply def args.

(** [async function load( name, def, app )]: the promise it returns.  An
    exception inside an [async] function rejects its promise at once; what
    the [await] waits for settles the promise a turn later at the earliest. *)
Definition load (name : string) (def : Def) : M Promise :=
  match def with
  | DefFunction f =>
      fun app =>
        match load_factory name f app with
        | (Normal (Immediately v), app') => (Normal {| settles_at := 1; outcome := Normal v |}, app')
        | (Normal (Fulfils t v), app') => (Normal {| settles_at := S t; outcome := Normal v |}, app')
        | (Normal (Rejects t e), app') => (Normal {| settles_at := S t; outcome := Throw e |}, app')
        | (Throw e, app') => (Normal {| settles_at := 0; outcome := Throw e |}, app')
        | (Stuck, app') => (Stuck, app')
        end
  | DefValue v => mret {| settles_at := 0; outcome := Normal v |}
  end.

(** *** [start] *)

(** [await Promise.all( pending )]: all the values, or the rejection that
    comes first (the earlier in the array among those of one turn). *)
Fixpoint first_rejection (pending : list Promise) : option (nat * JSError) :=
  match pending with
  | [] => None
  | p :: rest =>
      let later := first_rejection rest in
      match outcome p with
      | Throw e =>
          match later with
          | Some (t, e') => if (t <? settles_at p)%nat then Some (t, e') else Some (settles_at p, e)
          | None => Some (settles_at p, e)
          end
      | _ => later
      end
  end.

Definition await_all (pending : list Promise) : M (list Value) :=
  match first_rejection pending with
  | Some (_, e) => throw e
  | None => lift (map_completion outcome pending)
  end.

(** An element of the [layers] array. *)
Inductive Layer : Type :=
| LayerObject (defs : list (string * Def))
| LayerNull
| LayerUndefined.

(** The [layers] argument. *)
Inductive Layers : Type :=
| NotAnArray (v : Value)
| ArrayOf (layers : list Layer).

(** The [log] argument: left out, or a value without a [debug] method, or
    an object with one. *)
Inductive Logger : Type :=
| NoLogger
| NoDebug
| LoggerObject.

(** [log.debug( ... )] *)
Definition log_debug (log : Logger) : M unit :=
  match log with
  | NoLogger | NoDebug => throw NativeTypeError
  | LoggerObject => mret tt
  end.

(** [Object.keys( layer )] *)
Definition Object_keys (layer : Layer) : M (list string) :=
  match layer with
  | LayerObject defs => mret (map fst defs)
  | LayerNull | LayerUndefined => throw NativeTypeError
  end.

(** [layer[name]] for an own property *)
Definition layer_get (layer : Layer) (name : string) : Def :=
  match layer with
  | LayerObject defs =>
      default (DefValue VUndefined)
        (snd <$> find (fun entry => String.eqb (fst entry) name) defs)
  | _ => DefValue VUndefined
  end.

(** [services.forEach( ( service, idx ) => { let name = names[idx];
    log.debug(...); app.bind( name, service ); })] *)
Fixpoint bind_each (log : Logger) (names : list string) (services : list Value) : M unit :=
  match names, services with
  | name :: names', service :: services' =>
      log_debug log;;
      bind name service;;
      bind_each log names' services'
  | _, _ => mret tt
  end.

(** The body of the [for] loop. *)
Definition start_layer (log : Logger) (layer : Layer) : M unit :=
  log_debug log;;
  names ← Object_keys layer;
  pending ← map_M (fun name => load name (layer_get layer name)) names;
  services ← await_all pending;
  bind_each log names services.

(** [for( let idx = 0; idx < layers.length; i++ ) { ... }]: the update
    expression is [i++], and [i] is declared nowhere. *)
Fixpoint start_loop (fuel : nat) (log : Logger) (layers : list Layer) (idx : nat) : M unit :=
  if (idx <? length layers)%nat then
    match fuel with
    | O => stuck
    | S fuel' =>
        start_layer log (nth idx layers LayerUndefined);;
        _ ← lift (undeclared "i" : Completion Value);
        start_loop fuel' log layers idx
    end
  else mret tt.

(** [async function start( layers, log )]: how its promise settles, and the
    backbone as [start] left it (on success, the backbone it resolves to). *)
Definition start (fuel : nat) (layers : Layers) (log : Logger) : Completion unit * App :=
  match layers with
  | NotAnArray _ => (Throw (TypeError "Service layers must be an array"), new_App)
  | ArrayOf layers => start_loop fuel log layers 0 new_App
  end.

(** *** What the properties are stated with *)

(** The backbone after a call was recorded, after a listener was taken off
    an event, after a listener was added to it, and after [n] identities were
    issued. *)
Definition recorded (c : Call) (app : App) : App := snd (record c app).

Definition unregistered (eventName : string) (f : Fn) (app : App) : App :=
  snd (removeListener eventName f app).

Definition registered (eventName : string) (f : Fn) (app : App) : App :=
  snd (EventEmitter_on eventName f app).

Definition counted (n : nat) (app : App) : App :=
  {| services := services app; listeners := listeners app;
     next_id := n + next_id app; calls := calls app |}.

(** [app.bind( name, service )] for each pair, in order. *)
Fixpoint run_binds (binds : list (string * Value)) : M unit :=
  match binds with
  | [] => mret tt
  | (name, service) :: rest => bind name service;; run_binds rest
  end.

End Backbone.

(** ** lib/app.js: the older copy of [start]

    The copy checks its argument with [assert] and runs the same loop over
    a backbone of its own kind (services are properties of the backbone
    itself).  That backbone, and the body of the loop, are parameters here. *)

Module AppJs.
Import Backbone.

Section Start.

Variable App : Type.
Variable new_App : App.
Variable start_layer : Logger -> Layer -> App -> Completion unit * App.

(** [for( let idx = 0; idx < layers.length; i++ ) { ... }] *)
Fixpoint start_loop (fuel : nat) (log : Logger) (layers : list Layer) (idx : nat) (app : App)
  : Completion unit * App :=
  if (idx <? length layers)%nat then
    match fuel with
    | O => (Stuck, app)
    | S fuel' =>
        match start_layer log (nth idx layers LayerUndefined) app with
        | (Normal _, app') =>
            match (undeclared "i" : Completion Value) with
            | Normal _ => start_loop fuel' log layers idx app'
            | Throw e => (Throw e, app')
            | Stuck => (Stuck, app')
            end
        | (Throw e, app') => (Throw e, app')
        | (Stuck, app') => (Stuck, app')
        end
    end
  else (Normal tt, app).

(** [async function start( layers, log )], with
    [assert( Array.isArray( layers ), 'layers must be an array')]. *)
Definition start (fuel : nat) (layers : Layers) (log : Logger) : Completion unit * App :=
  match layers with
  | NotAnArray _ => (Throw (AssertionError "layers must be an array"), new_App)
  | ArrayOf layers => start_loop fuel log layers 0 new_App
  end.

End Start.

End AppJs.

(** ** What travels between client and server *)

Module Wire.

(** A JSON-safe value; arrays and objects are kept as their JSON text. *)
Inductive Payload : Type :=
| PUndefined
| PNull
| PBool (b : bool)
| PNum (n : Z)
| PStr (s : string)
| PData (json : string).

(** [!!v] *)
Definition truthy (v : Payload) : bool :=
  match v with
  | PUndefined | PNull => false
  | PBool b => b
  | PNum n => negb (n =? 0)%Z
  | PStr s => negb (String.eqb s "")
  | PData _ => true
  end.

(** [{ id, message }], what the server sends back. *)
Record Data : Type := { id : string; message : Payload }.

End Wire.

(** ** lib/ipc/client.js *)

Module IpcClient.
Import Wire.

(** How a promise stands.  A rejection carries what [reject] was given: the
    error text of the server, or the object [{ id, message }] of the timeout
    callback. *)
Inductive Reason : Type :=
| ErrorText (message : Payload)
| TimeoutError (id : string) (message : string).

Inductive PromiseState : Type :=
| Pending
| Fulfilled (result : Payload)
| Rejected (reason : Reason).

(** An entry of [pendings]: [{ resolve, reject, timerID }], where [resolve]
    and [reject] are the two functions of the promise [promise]. *)
Record PendingCall : Type := { promise : nat; timerID : nat }.

(** The arrow function given to [setTimeout]; it captured the call's [id]
    and the [reject] of the promise. *)
Record TimerCallback : Type := { timer_call : string; timer_promise : nat }.

(** [server.emit( mid, { id, args } )] *)
Record Sent : Type := { sent_topic : string; sent_id : string; sent_args : list Payload }.

(** A connected client: [this._messages], and the variables of the callback
    of [connectTo] ([midx], [pendings]), with the timers of the runtime that
    are armed, the promises made so far and what was sent to the server. *)
Record Client : Type := {
  messages : list string;
  midx : nat;
  pendings : gmap string PendingCall;
  timers : gmap nat TimerCallback;
  next_timer : nat;
  promises : list PromiseState;
  sent : list Sent
}.

(** The state once [connect()] has run its callback. *)
Definition connect (messages : list string) : Client :=
  {| messages := messages; midx := 0; pendings := ∅; timers := ∅;
     next_timer := 0; promises := []; sent := [] |}.

Definition promise_state (c : Client) (p : nat) : PromiseState :=
  default Pending (promises c !! p).

(** The [resolve] and [reject] functions of a promise: the first call
    settles it, later calls do nothing. *)
Definition settle (p : nat) (s : PromiseState) (c : Client) : Client :=
  match promises c !! p with
  | Some Pending =>
      {| messages := messages c; midx := midx c; pendings := pendings c;
         timers := timers c; next_timer := next_timer c;
         promises := <[p := s]> (promises c); sent := sent c |}
  | _ => c
  end.

(** What [clear( id )] returns: the stub, the pending entry, or (for an
    [id] that names a member of [Object.prototype]) that member. *)
Inductive Cleared : Type :=
| Stub
| Entry (pending : PendingCall)
| Member (name : string).

(** [function clear( id )] *)
Definition clear (id : string) (c : Client) : Cleared * Client :=
  match pendings c !! id with
  | Some pending =>
      (* delete pendings[id]; clearTimeout( timerID ); *)
      (Entry pending,
       {| messages := messages c; midx := midx c;
          pendings := delete id (pendings c);
          timers := delete (timerID pending) (timers c);
          next_timer := next_timer c; promises := promises c; sent := sent c |})
  | None =>
      if inherited id then (Member id, c)   (* nothing to delete, no [timerID] in it *)
      else (Stub, c)
  end.

(** [function resolve( data )] *)
Definition resolve (data : Data) (c : Client) : Completion unit * Client :=
  match clear (id data) c with
  | (Entry pending, c') => (Normal tt, settle (promise pending) (Fulfilled (message data)) c')
  | (Stub, c') => (Normal tt, c')
  | (Member _, c') => (Throw NativeTypeError, c')    (* it has no [resolve] to call *)
  end.

(** [function reject( data )] *)
Definition reject (data : Data) (c : Client) : Completion unit * Client :=
  match clear (id data) c with
  | (Entry pending, c') =>
      (Normal tt, settle (promise pending) (Rejected (ErrorText (message data))) c')
  | (Stub, c') => (Normal tt, c')
  | (Member _, c') => (Throw NativeTypeError, c')
  end.

(** The handlers [connect] registers on the server stub, in order. *)
Inductive Handler : Type := HResolve | HReject.

Definition handlers (messages : list string) : list (string * Handler) :=
  flat_map
    (fun name => [("message." +:+ name, HResolve); ("error." +:+ name, HReject)])
    messages.

Definition handlers_on (topic : string) (messages : list string) : list Handler :=
  map snd (filter (fun h => String.eqb (fst h) topic) (handlers messages)).

Fixpoint dispatch (hs : list Handler) (data : Data) (c : Client) : Completion unit * Client :=
  match hs with
  | [] => (Normal tt, c)
  | h :: hs' =>
      match (match h with HResolve => resolve data c | HReject => reject data c end) with
      | (Normal _, c') => dispatch hs' data c'
      | failed => failed
      end
  end.

(** [`${name}.${midx++}`] *)
Definition call_id (name : string) (n : nat) : string := name +:+ "." +:+ pretty n.

(** [self[name]( ...args )] for a registered message name: the promise it
    returns, and the state after.  Inside the executor, [reject] is the
    promise's own function (the parameter hides the outer [reject]). *)
Definition invoke (name : string) (args : list Payload) (c : Client) : nat * Client :=
  let id := call_id name (midx c) in
  let p := length (promises c) in
  let t := next_timer c in
  (p,
   {| messages := messages c;
      midx := S (midx c);
      pendings := <[id := {| promise := p; timerID := t |}]> (pendings c);
      timers := <[t := {| timer_call := id; timer_promise := p |}]> (timers c);
      next_timer := S t;
      promises := promises c ++ [Pending];
      sent := sent c ++ [{| sent_topic := "message." +:+ name; sent_id := id; sent_args := args |}] |}).

(** The timeout of timer [t] elapses: an armed timer runs its callback,
    [reject({ id, message })] with the promise's [reject]; a cleared one
    does not run. *)
Definition fire (t : nat) (c : Client) : Client :=
  match timers c !! t with
  | Some cb =>
      settle (timer_promise cb)
        (Rejected (TimeoutError (timer_call cb) "IPC message dispatch timeout"))
        {| messages := messages c; midx := midx c; pendings := pendings c;
           timers := delete t (timers c);
           next_timer := next_timer c; promises := promises c; sent := sent c |}
  | None => c
  end.

(** What can happen to a connected client. *)
Inductive Input : Type :=
| Invoke (name : string) (args : list Payload)
| Receive (topic : string) (data : Data)
| TimerFires (t : nat).

Definition step (c : Client) (i : Input) : Client :=
  match i with
  | Invoke name args =>
      if existsb (String.eqb name) (messages c) then snd (invoke name args c) else c
  | Receive topic data => snd (dispatch (handlers_on topic (messages c)) data c)
  | TimerFires t => fire t c
  end.

Definition run (inputs : list Input) (c : Client) : Client := fold_left step inputs c.

(** The outcome the protocol promises for a call, read off the inputs that
    follow it: the first response, error or timeout for the call decides. *)
Fixpoint first_outcome (msgs : list string) (call : string) (timer : nat) (inputs : list Input)
  : PromiseState :=
  match inputs with
  | [] => Pending
  | Receive topic data :: rest =>
      if String.eqb (id data) call then
        match handlers_on topic msgs with
        | HResolve :: _ => Fulfilled (message data)
        | HReject :: _ => Rejected (ErrorText (message data))
        | [] => first_outcome msgs call timer rest
        end
      else first_outcome msgs call timer rest
  | TimerFires t :: rest =>
      if (t =? timer)%nat then Rejected (TimeoutError call "IPC message dispatch timeout")
      else first_outcome msgs call timer rest
  | Invoke _ _ :: rest => first_outcome msgs call timer rest
  end.

End IpcClient.

(** ** lib/ipc/server.js *)

Module IpcServer.
Import Wire.

(** What a handler failed with, as the [catch] block reads it: [undefined]
    or [null], or a value with its [description], its [message] and what
    its [toString()] does. *)
Inductive Failure : Type :=
| FUndefined
| FNull
| FValue (description : Payload) (message : Payload) (toString : Completion Payload).

(** [await handler.apply( self, args )]: a result, or a failure (thrown or
    rejected). *)
Inductive HandlerResult : Type :=
| Returns (result : Payload)
| Fails (err : Failure).

(** [args] of the request: an array, or something else. *)
Inductive Args : Type :=
| ArgArray (items : list Payload)
| ArgOther (v : Payload).

(** [{ id, args }], what a client sends. *)
Record Request : Type := { req_id : string; req_args : Args }.

(** [ipc.server.emit( socket, topic, data )] *)
Record Emitted : Type := { to_socket : nat; topic : string; data : Data }.

(** [err.description || err.message || err.toString()] *)
Definition error_message (err : Failure) : Completion Payload :=
  match err with
  | FUndefined | FNull => Throw NativeTypeError
  | FValue description message toString =>
      if truthy description then Normal description
      else if truthy message then Normal message
      else toString
  end.

(** The listener [async ( data, socket ) => { ... }] registered for the
    message [name]: how its promise settles, and what it emitted. *)
Definition on_message (name : string) (handler : list Payload -> HandlerResult)
  (data : Request) (socket : nat) : Completion unit * list Emitted :=
  let id := req_id data in
  let args := match req_args data with
              | ArgArray items => items
              | ArgOther v => [v]
              end in
  match handler args with
  | Returns result =>
      (Normal tt,
       [{| to_socket := socket; topic := "message." +:+ name;
           data := {| Wire.id := id; message := result |} |}])
  | Fails err =>
      match error_message err with
      | Normal message =>
          (Normal tt,
           [{| to_socket := socket; topic := "error." +:+ name;
               data := {| Wire.id := id; message := message |} |}])
      | Throw e => (Throw e, [])
      | Stuck => (Stuck, [])
      end
  end.

End IpcServer.

(** ** Events: from the server's [emit] to the client's [emit] *)

Module IpcEvents.
Import Wire.

(** [ipc.server.broadcast( topic, data )] *)
Record Broadcast : Type := { b_topic : string; b_data : Data }.

(** lib/ipc/server.js, in the callback of [ipc.serve]:
    [self._events.forEach( eid => { self.on( eid, message => {
       ipc.server.broadcast(`event.${eid}`, { id, message }); }); })]
    with [id] the server's id.  The listeners this adds to the server object,
    in order: the event each listens to, and the topic it broadcasts on. *)
Definition server_listeners (events : list string) : list (string * string) :=
  map (fun eid => (eid, "event." +:+ eid)) events.

(** [self.emit( eid, message )] on the server object, as far as these
    listeners go: what is broadcast.  (The conventions of Node's emitter
    for the event ['error'] are not modelled.) *)
Definition server_emit (serverID : string) (events : list string) (eid : string)
  (message : Payload) : list Broadcast :=
  map (fun l => {| b_topic := snd l; b_data := {| id := serverID; message := message |} |})
      (filter (fun l => String.eqb (fst l) eid) (server_listeners events)).

(** lib/ipc/client.js, in the callback of [connectTo]:
    [self._events.forEach( eid => { server.on(`event.${eid}`, data => {
       let { id, message } = data; self.emit( eid, message ); }); })]
    The listeners this adds to the server stub: the topic each listens to,
    and the event it emits on the client. *)
Definition client_listeners (events : list string) : list (string * string) :=
  map (fun eid => ("event." +:+ eid, eid)) events.

(** A broadcast arrives at the client: the events the client object emits,
    each with its message.  (Again without the conventions for ['error'].) *)
Definition client_receive (events : list string) (topic : string) (data : Data)
  : list (string * Payload) :=
  map (fun l => (snd l, message data))
      (filter (fun l => String.eqb (fst l) topic) (client_listeners events)).

(** From [emit] on the server to the [emit]s on a client. *)
Definition relay (serverID : string) (server_events client_events : list string)
  (eid : string) (message : Payload) : list (string * Payload) :=
  flat_map (fun b => client_receive client_events (b_topic b) (b_data b))
           (server_emit serverID server_events eid message).

End IpcEvents.

(** ** What the further properties are stated with *)

Module Terms.
Import Backbone.

(** Did the promise resolve? *)
Definition resolved {A : Type} (c : Completion A) : bool :=
  match c with
  | Normal _ => true
  | _ => false
  end.

(** A layer of plain values, [{ name: value, ... }]: its own properties in
    the order of [Object.keys]. *)
Definition values_layer (values : list (string * Value)) : Layer :=
  LayerObject (map (fun entry => (fst entry, DefValue (snd entry))) values).

(** Of the values of the model, the members of [Object.prototype] are the
    functions ([typeof] gives ['function'] for [constructor], [toString]
    and the like). *)
Definition inherited_member (v : Value) : bool :=
  match v with
  | VInherited _ => true
  | _ => false
  end.

(** [app.services] after [services[name] = value] for each pair, in order,
    from the empty object. *)
Definition bound_services (values : list (string * Value)) : gmap string Value :=
  fold_left
    (fun services entry =>
       if String.eqb (fst entry) "__proto__" then services
       else <[fst entry := snd entry]> services)
    values ∅.

(** A string of word characters ([\w]) only. *)
Fixpoint word_only (s : string) : bool :=
  match s with
  | EmptyString => true
  | String c s' => is_word c && word_only s'
  end.

(** A string of white space ([\s]) only. *)
Fixpoint space_only (s : string) : bool :=
  match s with
  | EmptyString => true
  | String c s' => is_space c && space_only s'
  end.

(** An identifier, as far as the patterns of [readArgNames] tell. *)
Definition identifier (s : string) : bool :=
  negb (String.eqb s "") && word_only s.

(** Is a definition a function? *)
Definition is_factory (def : Def) : bool :=
  match def with
  | DefFunction _ => true
  | DefValue _ => false
  end.

(** The head of a function's source text. *)
Inductive Head : Type :=
| Named (name : string)       (* [function name( ... ) ...] *)
| Anonymous                   (* [function( ... ) ...] *)
| Arrow.                      (* [( ... ) => ...] *)

Definition head_text (h : Head) : string :=
  match h with
  | Named name => "function " +:+ name
  | Anonymous => "function"
  | Arrow => ""
  end.

(** The source text of a function with the parameters [params], written
    with one comma and one space between them; [rest] is what follows the
    closing parenthesis. *)
Definition function_text (h : Head) (params : list string) (rest : string) : string :=
  head_text h +:+ "(" +:+ String.concat ", " params +:+ ")" +:+ rest.

(** Does the character occur in the string? *)
Fixpoint has_char (c : ascii) (s : string) : bool :=
  match s with
  | EmptyString => false
  | String a s' => Ascii.eqb a c || has_char c s'
  end.

(** Does the string begin, or end, with white space? *)
Definition first_is_space (s : string) : bool :=
  match s with
  | String c _ => is_space c
  | EmptyString => false
  end.

Definition last_is_space (s : string) : bool := first_is_space (String.rev s).

(** A name as [readArgNames] returns it: trimmed, and with no comma and no
    closing parenthesis in it. *)
Definition trimmed_part (s : string) : bool :=
  negb (first_is_space s) && negb (last_is_space s)
  && negb (has_char "," s) && negb (has_char ")" s).

(** The first of the names that [app.services] has nothing under. *)
Definition first_unbound (app : App) (names : list string) : option string :=
  find (fun name => is_undefined (services_get app name)) names.

(** Is the input a response or an error that carries the identifier
    [call]? *)
Definition replies_to (call : string) (i : IpcClient.Input) : bool :=
  match i with
  | IpcClient.Receive _ data => String.eqb (Wire.id data) call
  | _ => false
  end.

(** What the server emitted to the client's socket arrives at the client:
    each reply, on its topic. *)
Definition deliver (replies : list IpcServer.Emitted) (c : IpcClient.Client)
  : IpcClient.Client :=
  IpcClient.run
    (map (fun e => IpcClient.Receive (IpcServer.topic e) (IpcServer.data e)) replies) c.

(** The arguments a handler is applied to. *)
Definition handler_args (request : IpcServer.Request) : list Wire.Payload :=
  match IpcServer.req_args request with
  | IpcServer.ArgArray items => items
  | IpcServer.ArgOther v => [v]
  end.

End Terms.

(** * Properties *)

(** ** Lists filtered by a boolean test *)

Module ListFacts.

Lemma filter_cons_true {A} (P : A -> bool) (a : A) (l : list A) :
  P a = true -> filter (fun r => P r) (a :: l) = a :: filter (fun r => P r) l.
Proof. intros H. apply filter_cons_True. cbv beta. rewrite H. exact I. Qed.

Lemma filter_cons_false {A} (P : A -> bool) (a : A) (l : list A) :
  P a = false -> filter (fun r => P r) (a :: l) = filter (fun r => P r) l.
Proof. intros H. apply filter_cons_False. cbv beta. rewrite H. intros []. Qed.

Lemma filter_none {A} (P : A -> bool) (l : list A) :
  (forall r, r ∈ l -> P r = false) -> filter (fun r => P r) l = [].
Proof.
  induction l as [|a l IH]; intros H; [done|].
  rewrite filter_cons_false by (apply H; by left).
  apply IH. intros r Hr. apply H. by right.
Qed.

End ListFacts.

(** ** lib/interface-def.js *)

Module InterfaceDefFacts.
Import InterfaceDef.

Lemma keys_replace_value k v props : keys (replace_value k v props) = keys props.
Proof.
  induction props as [|[k' v'] rest IH]; simpl; [done|].
  destruct (String.eqb k' k); simpl; [done|]. by rewrite IH.
Qed.

Lemma keys_insert_index n k v props k' :
  In k' (keys (insert_index n k v props)) <-> k' = k \/ In k' (keys props).
Proof.
  induction props as [|[k0 v0] rest IH]; simpl; [naive_solver|].
  destruct (array_index k0) as [m|]; [destruct (n <? m)%N|]; simpl; rewrite ?IH; naive_solver.
Qed.

Lemma keys_obj_set props k v k' :
  In k' (keys (obj_set props k v)) <-> k' = k \/ In k' (keys props).
Proof.
  unfold obj_set. destruct (existsb (String.eqb k) (keys props)) eqn:E.
  - rewrite keys_replace_value. apply existsb_exists in E as (x & Hx & Hkx).
    apply String.eqb_eq in Hkx. subst x. naive_solver.
  - destruct (array_index k).
    + apply keys_insert_index.
    + unfold keys. rewrite map_app, in_app_iff. simpl. naive_solver.
Qed.

Definition all_object (props : list (string * IfDef)) : Prop :=
  forall k t, In (k, t) props -> t = DStr "object".

Lemma all_object_replace_value k props :
  all_object props -> all_object (replace_value k (DStr "object") props).
Proof.
  unfold all_object. induction props as [|[k' v'] rest IH]; simpl; [done|].
  intros H k0 t. destruct (String.eqb k' k); simpl; intros [E|E].
  - by inversion E.
  - eapply H; eauto.
  - eapply H; eauto.
  - eapply IH; eauto.
Qed.

Lemma all_object_insert_index n k props :
  all_object props -> all_object (insert_index n k (DStr "object") props).
Proof.
  unfold all_object. induction props as [|[k' v'] rest IH]; simpl.
  - intros _ k0 t [E|[]]. by inversion E.
  - intros H k0 t. destruct (array_index k') as [m|]; [destruct (n <? m)%N|]; simpl.
    + intros [E|E]; [by inversion E|]. eapply H; eauto.
    + intros [E|E]; [eapply H; eauto|]. eapply IH; eauto.
    + intros [E|E]; [by inversion E|]. eapply H; eauto.
Qed.

Lemma all_object_obj_set props k :
  all_object props -> all_object (obj_set props k (DStr "object")).
Proof.
  intros H. unfold obj_set. destruct (existsb _ _).
  - by apply all_object_replace_value.
  - destruct (array_index k).
    + by apply all_object_insert_index.
    + intros k0 t Hin. apply in_app_iff in Hin as [Hin|[E|[]]]; [eapply H; eauto|by inversion E].
Qed.

Definition reduce_step (def : list (string * IfDef)) (item : string) :=
  if String.eqb item "__proto__" then def else obj_set def item (DStr "object").

Lemma fold_reduce_keys items : forall acc k,
  In k (keys (fold_left reduce_step items acc))
  <-> (In k items /\ k <> "__proto__") \/ In k (keys acc).
Proof.
  induction items as [|item items IH]; intros acc k; simpl; [naive_solver|].
  rewrite IH. unfold reduce_step.
  destruct (String.eqb item "__proto__") eqn:E.
  - apply String.eqb_eq in E. naive_solver.
  - apply String.eqb_neq in E. rewrite keys_obj_set. naive_solver.
Qed.

Lemma fold_reduce_all_object items : forall acc,
  all_object acc -> all_object (fold_left reduce_step items acc).
Proof.
  induction items as [|item items IH]; intros acc H; simpl; [done|].
  apply IH. unfold reduce_step. destruct (String.eqb item "__proto__"); [done|].
  by apply all_object_obj_set.
Qed.

Lemma array_to_object_keys items k :
  In k (keys (array_to_object items)) <-> In k items /\ k <> "__proto__".
Proof.
  unfold array_to_object. change (fun def item => _) with reduce_step.
  rewrite fold_reduce_keys. simpl. naive_solver.
Qed.

Lemma array_to_object_all_object items : all_object (array_to_object items).
Proof.
  unfold array_to_object. change (fun def item => _) with reduce_step.
  apply fold_reduce_all_object. intros k t [].
Qed.

Lemma obj_get_in props name :
  In name (keys props) -> In (name, obj_get props name) props.
Proof.
  induction props as [|[k v] rest IH]; simpl; [done|].
  destruct (String.eqb k name) eqn:E.
  - apply String.eqb_eq in E. subst. by left.
  - apply String.eqb_neq in E. intros [?|?]; [done|]. right. by apply IH.
Qed.

Lemma obj_get_absent props name :
  ~ In name (keys props) -> obj_get props name = DUndefined.
Proof.
  induction props as [|[k v] rest IH]; simpl; [done|].
  intros H. destruct (String.eqb k name) eqn:E.
  - apply String.eqb_eq in E. naive_solver.
  - apply IH. naive_solver.
Qed.

(** The test [Tests.object]. *)
Definition object_test : Value -> bool :=
  fun value => String.eqb (typeof value) "object".

Definition object_tests (ks : list string) : list (string * Isa) :=
  map (fun name => (name, IsaTest object_test)) ks.

Lemma tests_of_all_object compile props : forall ks,
  all_object props ->
  (forall k, In k ks -> In k (keys props)) ->
  map_completion
    (fun name => isa ← test compile (obj_get props name) name; Normal (name, isa)) ks
  = Normal (object_tests ks).
Proof.
  induction ks as [|k ks IH]; intros Hall Hks; simpl; [done|].
  rewrite (Hall k (obj_get props k)) by (apply obj_get_in, Hks; by left).
  simpl. rewrite IH; [done|done|]. intros; apply Hks; by right.
Qed.

Lemma compile_array names :
  compile (DArr names) = Normal (DIfTest (object_tests (keys (array_to_object names)))).
Proof.
  unfold compile. simpl. unfold compile_body. simpl.
  rewrite tests_of_all_object; [done|apply array_to_object_all_object|done].
Qed.

Lemma compile_n_all_object n props :
  all_object props -> ~ In "__IsIFDef" (keys props) ->
  compile_n (S n) (DObj props) = Normal (DIfTest (object_tests (keys props))).
Proof.
  intros Hall Hm. simpl. unfold compile_body. simpl.
  rewrite obj_get_absent by done. simpl.
  rewrite tests_of_all_object; done.
Qed.

Lemma reduce_object_tests get ty arr : forall ks ok,
  (fix reduce (ts : list (string * Isa)) (ok : bool) {struct ts} : Completion bool :=
     match ts with
     | [] => Normal ok
     | (name, isa) :: ts' =>
         r ← (if ok then v ← get_prop (Val ty arr get) name; call_isa isa v else Normal false);
         reduce ts' r
     end) (object_tests ks) ok
  = Normal (ok && forallb (fun k => object_test (get k)) ks).
Proof.
  induction ks as [|k ks IH]; intros ok; simpl.
  - by rewrite andb_true_r.
  - destruct ok; simpl; rewrite IH; done.
Qed.

Lemma call_object_tests ks obj :
  call (DIfTest (object_tests ks)) obj =
  match obj with
  | Undefined | Null => match ks with [] => Normal true | _ => Throw NativeTypeError end
  | Val _ _ get => Normal (forallb (fun k => object_test (get k)) ks)
  end.
Proof.
  destruct obj as [| |ty arr get].
  - destruct ks; done.
  - destruct ks; done.
  - simpl. apply (reduce_object_tests get ty arr ks true).
Qed.

Lemma forallb_same_elements {A} (f : A -> bool) (l1 l2 : list A) :
  (forall x, In x l1 <-> In x l2) -> forallb f l1 = forallb f l2.
Proof.
  intros H. apply eq_true_iff_eq. rewrite !forallb_forall.
  split; intros Hf x Hx; apply Hf, H, Hx.
Qed.

Lemma same_elements_nil {A} (l1 l2 : list A) :
  (forall x, In x l1 <-> In x l2) ->
  match l1, l2 with [], [] => True | _ :: _, _ :: _ => True | _, _ => False end.
Proof.
  destruct l1 as [|a l1], l2 as [|b l2]; try done; intros H.
  - destruct (proj2 (H b)). by left.
  - destruct (proj1 (H a)). by left.
Qed.


Lemma map_completion_length {A B} (f : A -> Completion B) : forall l ys,
  map_completion f l = Normal ys -> length ys = length l.
Proof.
  induction l as [|x l IH]; simpl; intros ys H.
  - by inversion H.
  - destruct (f x); simpl in H; try done.
    destruct (map_completion f l) eqn:E; simpl in H; try done.
    inversion H; subst. simpl. f_equal. by apply IH.
Qed.

Lemma compile_tests_length props tests :
  compile (DObj props) = Normal (DIfTest tests) -> length tests = length props.
Proof.
  unfold compile. simpl. unfold compile_body. simpl.
  destruct (truthy (obj_get props "__IsIFDef")); [done|]. simpl. intros H.
  destruct (map_completion _ _) eqn:E in H; simpl in H; try done.
  inversion H; subst. apply map_completion_length in E. rewrite E.
  unfold keys. by rewrite length_map.
Qed.

Lemma compile_object_result props f :
  compile (DObj props) = Normal f -> f = DObj props \/ exists tests, f = DIfTest tests.
Proof.
  unfold compile. simpl. unfold compile_body. simpl.
  destruct (truthy (obj_get props "__IsIFDef")); [intros H; left; by inversion H|].
  simpl. intros H. destruct (map_completion _ _) eqn:E in H; simpl in H; try done.
  right. eexists. by inversion H.
Qed.


(** The candidates used below: an object without properties, and one whose
    [a] is an object and whose [b] is [null]. *)
Definition empty_object : Value := Val TyObject false (fun _ => Undefined).

Definition object_a_b : Value :=
  Val TyObject false
    (fun name => if String.eqb name "a" then empty_object
                 else if String.eqb name "b" then Null else Undefined).


(** The list of the claim, against the object of the claim, on every
    candidate. *)
Lemma list_a_b_as_object obj :
  conforms (DArr ["a"; "b"]) obj
  = conforms (DObj [("a", DStr "object"); ("b", DStr "object")]) obj.
Proof. destruct obj; reflexivity. Qed.




(** [compile] never uses up its depth bound. *)
Lemma map_completion_not_stuck {A B} (f : A -> Completion B) : forall l,
  (forall x, In x l -> f x <> Stuck) -> map_completion f l <> Stuck.
Proof.
  induction l as [|x l IH]; intros H; simpl; [done|].
  pose proof (H x (or_introl eq_refl)) as Hx.
  destruct (f x); simpl; [|done|done].
  assert (Hl : map_completion f l <> Stuck) by (apply IH; intros; apply H; by right).
  by destruct (map_completion f l).
Qed.

Lemma depth_of_member props k t :
  In (k, t) props -> depth t < depth (DObj props).
Proof.
  simpl. induction props as [|[k' t'] props IH]; intros H; [done|].
  destruct H as [E|H].
  - inversion E; subst. lia.
  - specialize (IH H). lia.
Qed.

Lemma compile_n_not_stuck n : forall d, depth d < n -> compile_n n d <> Stuck.
Proof.
  induction n as [|n IH]; intros d Hd; [lia|]. simpl. unfold compile_body.
  destruct (get_marker d) as [marker| |] eqn:Em; simpl; [|done|by destruct d].
  destruct (truthy marker); [done|].
  destruct d; simpl; try done.
  - rewrite tests_of_all_object; [done|apply array_to_object_all_object|done].
  - assert (Ht : map_completion
               (fun name => isa ← test (compile_n n) (obj_get props name) name;
                            Normal (name, isa)) (keys props) <> Stuck).
    { apply map_completion_not_stuck. intros k Hk.
      apply list_elem_of_In in Hk. apply list_elem_of_In, obj_get_in in Hk.
      apply depth_of_member in Hk.
      assert (Hc : compile_n n (obj_get props k) <> Stuck) by (apply IH; lia).
      unfold test. destruct (obj_get props k); simpl;
        try (destruct (compile_n n _); simpl; done).
      by destruct (Tests_get s). }
    by destruct (map_completion _ _).
Qed.

Lemma compile_not_stuck d : compile d <> Stuck.
Proof. unfold compile. apply compile_n_not_stuck. lia. Qed.


End InterfaceDefFacts.

(** ** The backbone *)

Module BackboneFacts.
Import Backbone ListFacts.

Ltac munfold :=
  unfold mbind, mret, M_bind, M_ret, bindM, ret, throw, stuck, lift in *.

(** *** [start] *)

Lemma start_loop_first fuel log layer rest app :
  start_loop (S fuel) log (layer :: rest) 0 app =
  match start_layer log layer app with
  | (Normal _, app') => (Throw (ReferenceError "i"), app')
  | (Throw e, app') => (Throw e, app')
  | (Stuck, app') => (Stuck, app')
  end.
Proof.
  simpl. munfold. destruct (start_layer log layer app) as [[[]| |] app']; reflexivity.
Qed.

(** C1.  The code at the claim's failing input: two layers of plain
    values, with a logger.  [start] binds the first layer, then the update
    expression [i++] of its loop throws; the second layer is never started
    and the promise is rejected. *)
Theorem start_two_value_layers fuel (settings db : Value) :
  start (S fuel)
    (ArrayOf [LayerObject [("settings", DefValue settings)];
              LayerObject [("db", DefValue db)]])
    LoggerObject
  = (Throw (ReferenceError "i"),
     {| services := <["settings" := settings]> ∅; listeners := ∅;
        next_id := 0; calls := [] |}).
Proof. reflexivity. Qed.

Lemma load_factory_fails name f app :
  exec_function_args name = None ->
  load name (DefFunction f) app
  = (Normal {| settles_at := 0; outcome := Throw (ReferenceError "fns") |}, app).
Proof.
  intros H. unfold load, load_factory, readArgNames. simpl. rewrite H. reflexivity.
Qed.

(** C3.  The code at the claim's failing input: one layer with a
    factory [db] whose dependency is not bound.  [load] hands the service
    name to [readArgNames] in the place of the function, no pattern matches
    it, and the read of [fns] throws: the rejection names neither the
    dependency nor the service. *)
Theorem start_unresolved_dependency fuel (db : Factory) :
  start (S fuel) (ArrayOf [LayerObject [("db", DefFunction db)]]) LoggerObject
  = (Throw (ReferenceError "fns"), new_App).
Proof. reflexivity. Qed.

(** C9, as amended.  [start] checks that its argument is an array, and
    nothing more.  The copy in [src/unnamed/part_000]: for every argument
    that is no array it rejects with the [TypeError] 'Service layers must be
    an array'; for the empty array it resolves, to a backbone without
    services; an array whose first element is [null] or [undefined] is not
    refused by the check, the loop is entered and the rejection is the
    engine's [TypeError] (of [log.debug] without a logger, else of
    [Object.keys]).  The copy in [lib/app.js], whatever the body of its loop
    does: for every argument that is no array it rejects with the
    [AssertionError] 'layers must be an array', and for the empty array it
    resolves. *)
Theorem start_validates_array_only fuel log :
  (forall v, start fuel (NotAnArray v) log
             = (Throw (TypeError "Service layers must be an array"), new_App))
  /\ start fuel (ArrayOf []) log = (Normal tt, new_App)
  /\ (forall rest, start (S fuel) (ArrayOf (LayerNull :: rest)) log
                   = (Throw NativeTypeError, new_App))
  /\ (forall rest, start (S fuel) (ArrayOf (LayerUndefined :: rest)) log
                   = (Throw NativeTypeError, new_App))
  /\ (forall (App : Type) (new : App) start_layer,
        (forall v, AppJs.start App new start_layer fuel (NotAnArray v) log
                   = (Throw (AssertionError "layers must be an array"), new))
        /\ AppJs.start App new start_layer fuel (ArrayOf []) log = (Normal tt, new)).
Proof.
  split; [reflexivity|]. split; [destruct fuel; reflexivity|].
  split; [intros rest; destruct log; reflexivity|].
  split; [intros rest; destruct log; reflexivity|].
  intros A new body. split; [reflexivity|]. destruct fuel; reflexivity.
Qed.

(** C9, as stated, fails for the empty array: [start] resolves. *)
Lemma start_empty_resolves :
  start 1 (ArrayOf []) LoggerObject = (Normal tt, new_App).
Proof. reflexivity. Qed.

(** *** Qualified event names *)

Lemma indexOf_from_found scope rest : forall i,
  (0 <= i)%Z ->
  indexOf_from ":" scope i = (-1)%Z ->
  forall j, indexOf_from ":" (scope +:+ ":" +:+ rest) j = (j + Z.of_nat (String.length scope))%Z.
Proof.
  induction scope as [|a scope IH]; intros i Hi H j; simpl in *.
  - lia.
  - destruct (Ascii.eqb a ":"); [lia|].
    rewrite (IH (i + 1)%Z) by (done || lia). lia.
Qed.

Lemma indexOf_qualified scope rest :
  indexOf scope ":" = (-1)%Z ->
  indexOf (scope +:+ ":" +:+ rest) ":" = Z.of_nat (String.length scope).
Proof.
  intros H. unfold indexOf. by rewrite (indexOf_from_found scope rest 0).
Qed.

Lemma indexOf_from_none s : forall i j,
  (0 <= i)%Z -> indexOf_from ":" s i = (-1)%Z -> indexOf_from ":" s j = (-1)%Z \/ (j < 0)%Z.
Proof.
  induction s as [|a s IH]; intros i j Hi H; simpl in *; [by left|].
  destruct (Ascii.eqb a ":"); [lia|].
  destruct (IH (i + 1)%Z (j + 1)%Z) as [?|?]; [lia|done|by left|right; lia].
Qed.

Lemma substring_all s : String.substring 0 (String.length s) s = s.
Proof. induction s; simpl; [done|]. by rewrite IHs. Qed.

Lemma substring_prefix s t : String.substring 0 (String.length s) (s +:+ t) = s.
Proof.
  induction s as [|a s IH]; simpl.
  - destruct t; done.
  - by rewrite IH.
Qed.

Lemma substring_skip s t m : String.substring (String.length s) m (s +:+ t) = String.substring 0 m t.
Proof. induction s as [|a s IH]; simpl; [by destruct t, m|]. apply IH. Qed.

Lemma length_append s t : String.length (s +:+ t) = String.length s + String.length t.
Proof. induction s; simpl; [done|]. by rewrite IHs. Qed.

Lemma append_assoc3 s t u : (s +:+ t) +:+ u = s +:+ t +:+ u.
Proof.
  induction s as [|a s IH]; [done|].
  change (String a ((s +:+ t) +:+ u) = String a (s +:+ t +:+ u)). by rewrite IH.
Qed.

Lemma substring_to_qualified scope rest :
  substring_to (scope +:+ ":" +:+ rest) (Z.of_nat (String.length scope)) = scope.
Proof. unfold substring_to. rewrite Nat2Z.id. apply substring_prefix. Qed.

Lemma substring_from_qualified scope rest :
  substring_from (scope +:+ ":" +:+ rest) (Z.of_nat (String.length scope) + 1) = rest.
Proof.
  unfold substring_from.
  assert (Hn : Z.to_nat (Z.of_nat (String.length scope) + 1) = String.length (scope +:+ ":")).
  { rewrite length_append. simpl. lia. }
  rewrite Hn, <- (append_assoc3 scope ":" rest), substring_skip.
  rewrite (length_append (scope +:+ ":") rest).
  assert (Hm : forall a b : nat, (a + b - a = b)%nat) by lia. rewrite Hm.
  apply substring_all.
Qed.

Lemma scope_length_pos scope : scope <> "" -> (0 <? Z.of_nat (String.length scope))%Z = true.
Proof. destruct scope; [done|]. intros _. apply Z.ltb_lt. simpl. lia. Qed.

Lemma addEventListener_unfold n eventName listener method :
  _addEventListener_n (S n) eventName listener method
  = _addEventListener_body (_addEventListener_n n) (onServiceBind_n n)
      eventName listener method.
Proof. reflexivity. Qed.

Lemma delegate_to_emitter n app scope event listener method src :
  scope <> "" -> indexOf scope ":" = (-1)%Z ->
  services_get app scope = src -> instanceof_EventEmitter src = true ->
  _addEventListener_n (S n) (scope +:+ ":" +:+ event) listener method app
  = (Normal tt, recorded (MethodCalled src method event listener) app).
Proof.
  intros Hne Hcolon Hsrc Hem. rewrite addEventListener_unfold.
  unfold _addEventListener_body.
  rewrite indexOf_qualified, scope_length_pos, substring_to_qualified,
    substring_from_qualified by done.
  munfold. unfold get_service. rewrite Hsrc.
  destruct src; try done. simpl in Hem. subst. reflexivity.
Qed.

Lemma refuse_other_source n app scope event listener method src :
  scope <> "" -> indexOf scope ":" = (-1)%Z ->
  services_get app scope = src -> is_undefined src = false ->
  instanceof_EventEmitter src = false ->
  _addEventListener_n (S n) (scope +:+ ":" +:+ event) listener method app
  = (Throw (Error ("Event source must be an EventEmitter: " +:+ scope)), app).
Proof.
  intros Hne Hcolon Hsrc Hdef Hem. rewrite addEventListener_unfold.
  unfold _addEventListener_body.
  rewrite indexOf_qualified, scope_length_pos, substring_to_qualified by done.
  munfold. unfold get_service. rewrite Hsrc, Hdef, Hem. reflexivity.
Qed.

Lemma unqualified_on n app name listener :
  indexOf name ":" = (-1)%Z ->
  _addEventListener_n (S n) name listener On app = EventEmitter_on name listener app.
Proof.
  intros H. rewrite addEventListener_unfold. unfold _addEventListener_body.
  rewrite H. reflexivity.
Qed.

Lemma unqualified_once n app name listener :
  indexOf name ":" = (-1)%Z ->
  _addEventListener_n (S (S n)) name listener Once app
  = (wid ← fresh; EventEmitter_on name (OnceWrapper wid name listener false)) app.
Proof.
  intros H. rewrite addEventListener_unfold. unfold _addEventListener_body.
  rewrite H. cbv beta iota zeta. change (0 <? -1)%Z with false. change (-1 =? 0)%Z with false.
  cbv iota. unfold EventEmitter_once. munfold. unfold fresh. cbv beta iota.
  by rewrite unqualified_on.
Qed.

Lemma substring_from_1 a s : substring_from (String a s) 1 = s.
Proof.
  unfold substring_from. simpl. rewrite Nat.sub_0_r. apply substring_all.
Qed.

Lemma empty_scope_on n app event listener :
  _addEventListener_n (S n) (":" +:+ event) listener On app
  = EventEmitter_on event listener app.
Proof.
  rewrite addEventListener_unfold. unfold _addEventListener_body.
  change (indexOf (":" +:+ event) ":") with 0%Z. cbv beta iota zeta.
  change (0 <? 0)%Z with false. change (0 =? 0)%Z with true. cbv iota.
  change (":" +:+ event) with (String ":" event). by rewrite substring_from_1.
Qed.

Lemma empty_scope_once n app event listener :
  _addEventListener_n (S n) (":" +:+ event) listener Once app
  = (wid ← fresh; _addEventListener_n n event (OnceWrapper wid event listener false) On) app.
Proof.
  rewrite addEventListener_unfold. unfold _addEventListener_body.
  change (indexOf (":" +:+ event) ":") with 0%Z. cbv beta iota zeta.
  change (0 <? 0)%Z with false. change (0 =? 0)%Z with true. cbv iota.
  change (":" +:+ event) with (String ":" event). by rewrite substring_from_1.
Qed.

Lemma onServiceBind_unbound n app name callback once :
  services_get app name = VUndefined ->
  onServiceBind_n (S (S n)) name callback once app
  = (Normal tt,
     registered "service-bind" (BindHandler (next_id app) name callback once)
       (counted 1 app)).
Proof.
  intros Hsrc.
  change (onServiceBind_n (S (S n)) ?a ?b ?c app)
    with (onServiceBind_body (call_n (S n)) (_addEventListener_n (S n)) a b c app).
  unfold onServiceBind_body. munfold. unfold get_service. rewrite Hsrc.
  change (negb (is_undefined VUndefined)) with false. cbv iota beta.
  unfold fresh at 1. cbv iota beta.
  rewrite unqualified_on by reflexivity.
  reflexivity.
Qed.

Lemma defer_to_onServiceBind n app scope event listener method :
  scope <> "" -> indexOf scope ":" = (-1)%Z ->
  services_get app scope = VUndefined ->
  _addEventListener_n (S n) (scope +:+ ":" +:+ event) listener method app
  = onServiceBind_n n scope (RetryListener (scope +:+ ":" +:+ event) listener method) true app.
Proof.
  intros Hne Hcolon Hsrc. rewrite addEventListener_unfold.
  unfold _addEventListener_body.
  rewrite indexOf_qualified, scope_length_pos, substring_to_qualified by done.
  munfold. unfold get_service at 1. rewrite Hsrc. reflexivity.
Qed.

(** With [on], the depth 3 is enough. *)
Lemma on_depth n app eventName listener :
  _addEventListener_n (3 + n) eventName listener On app
  = _addEventListener_n 3 eventName listener On app.
Proof.
  change (3 + n) with (S (S (S n))). rewrite !addEventListener_unfold.
  unfold _addEventListener_body.
  destruct (0 <? indexOf eventName ":")%Z; [|reflexivity].
  munfold. unfold get_service.
  destruct (services_get app _) eqn:Hsrc; try reflexivity.
  change (is_undefined VUndefined) with true. cbv iota.
  by rewrite !onServiceBind_unbound.
Qed.

Lemma retry_when_bound app scope event listener method hid src :
  scope <> "" -> indexOf scope ":" = (-1)%Z ->
  services_get app scope = src -> instanceof_EventEmitter src = true ->
  let eventName := scope +:+ ":" +:+ event in
  let handler := BindHandler hid scope (RetryListener eventName listener method) true in
  call handler {| ev_name := scope; ev_service := src |} app
  = (Normal tt,
     unregistered "service-bind" handler
       (recorded (MethodCalled src method event listener) app)).
Proof.
  intros Hne Hcolon Hsrc Hem. cbv zeta.
  unfold call. change (call_depth (BindHandler _ _ _ _)) with 6.
  change (call_n 6 ?f ?e) with (call_body (call_n 5) (_addEventListener_n 5) f e).
  unfold call_body at 1. simpl ev_name. rewrite String.eqb_refl.
  munfold.
  change (call_n 5 (RetryListener ?e ?l ?m) ?ev)
    with (_addEventListener_n 4 e l m).
  erewrite delegate_to_emitter by done.
  reflexivity.
Qed.




(** An object that has [on] and [once] and is no [EventEmitter]. *)
Definition duck : Value := VObject 8 false ["on"; "once"].


(** From subscription to delivery on a fresh backbone. *)
Lemma deferred_subscription_delivered :
  let emitter := VObject 7 true [] in
  (on "svc:evt" (UserFn 2);; bind "svc" emitter) new_App
  = (Normal tt,
     {| services := <["svc" := emitter]> ∅;
        listeners := ∅;
        next_id := 1;
        calls := [MethodCalled emitter On "evt" (UserFn 2)] |}).
Proof. reflexivity. Qed.

(** [once] under an empty scope reads the rest of the name again:
    [once('::evt')] lands under ['evt'], and [once(':svc:evt')] hands its
    wrapper to the [on] of [svc]. *)
Lemma once_reads_the_name_twice :
  let emitter := VObject 7 true [] in
  once "::evt" (UserFn 2) new_App
  = (Normal tt,
     {| services := ∅;
        listeners := <["evt" := [OnceWrapper 0 ":evt" (UserFn 2) false]]> ∅;
        next_id := 1;
        calls := [] |})
  /\ calls (snd ((bind "svc" emitter;; once ":svc:evt" (UserFn 2)) new_App))
     = [MethodCalled emitter On "evt" (OnceWrapper 0 "svc:evt" (UserFn 2) false)].
Proof. split; reflexivity. Qed.

(** A listener added with [once] is called for the first event and taken
    off; when the wrapper sits under another name than the one it removes
    itself from, it stays, and its flag keeps the listener from a second
    call. *)
Lemma once_listener_called_once :
  (once "service-bind" (UserFn 2);; bind "a" (VNum 1);; bind "b" (VNum 2)) new_App
  = (Normal tt,
     {| services := <["b" := VNum 2]> (<["a" := VNum 1]> ∅);
        listeners := ∅;
        next_id := 1;
        calls := [Called 2 {| ev_name := "a"; ev_service := VNum 1 |}] |})
  /\ (once "::service-bind" (UserFn 2);; bind "a" (VNum 1);; bind "b" (VNum 2)) new_App
     = (Normal tt,
        {| services := <["b" := VNum 2]> (<["a" := VNum 1]> ∅);
           listeners :=
             <["service-bind" := [OnceWrapper 0 ":service-bind" (UserFn 2) true]]> ∅;
           next_id := 1;
           calls := [Called 2 {| ev_name := "a"; ev_service := VNum 1 |}] |}).
Proof. split; reflexivity. Qed.

(** *** Callbacks of [onServiceBind] *)

(** C5.  The code at the claim's failing input: on a fresh backbone,
    [onServiceBind( 'toString', cb )] and then [bind( 'toString', service )].
    Nothing is bound under ['toString'], and [this.services['toString']]
    reads the function every object inherits: the call invokes the callback
    at once, with that function, and registers no handler; the bind that
    follows invokes nothing, and the callback never sees the bound
    service. *)
Theorem onServiceBind_inherited_name (service : Value) :
  services new_App !! "toString" = None
  /\ onServiceBind "toString" (UserFn 1) true new_App
     = (Normal tt,
        recorded (Called 1 {| ev_name := "toString"; ev_service := VInherited "toString" |})
          new_App)
  /\ (onServiceBind "toString" (UserFn 1) true;; bind "toString" service) new_App
     = (Normal tt,
        {| services := <["toString" := service]> ∅;
           listeners := ∅;
           next_id := 0;
           calls := [Called 1 {| ev_name := "toString";
                                 ev_service := VInherited "toString" |}] |}).
Proof. repeat split; reflexivity. Qed.

(** The two orders of the claim, on a fresh backbone and with a name that
    no object inherits. *)
Lemma bound_later_called_once :
  calls (snd ((onServiceBind "db" (UserFn 1) true;;
               bind "settings" (VNum 1);; bind "db" (VNum 2);; bind "db" (VNum 3)) new_App))
  = [Called 1 {| ev_name := "db"; ev_service := VNum 2 |}].
Proof. reflexivity. Qed.

Lemma bound_before_called_once :
  calls (snd ((bind "db" (VNum 2);; onServiceBind "db" (UserFn 1) true;;
               bind "x" (VNum 1);; bind "db" (VNum 3)) new_App))
  = [Called 1 {| ev_name := "db"; ev_service := VNum 2 |}].
Proof. reflexivity. Qed.

(** A bind whose earlier listener throws does not reach the callback: with
    a subscription to ['db:evt'] waiting, the bind of [db] to a number
    throws in the retry, and the callback is called for the next bind. *)
Lemma throwing_listener_hides_bind :
  let emitter := VObject 7 true [] in
  let waiting := on "db:evt" (UserFn 2);; onServiceBind "db" (UserFn 1) true in
  (waiting;; bind "db" (VNum 2)) new_App
  = (Throw (Error "Event source must be an EventEmitter: db"),
     snd ((waiting;; set_service "db" (VNum 2)) new_App))
  /\ calls (snd (bind "db" emitter (snd ((waiting;; bind "db" (VNum 2)) new_App))))
     = [MethodCalled emitter On "evt" (UserFn 2);
        Called 1 {| ev_name := "db"; ev_service := emitter |}].
Proof. split; reflexivity. Qed.

(** *** The depth bounds are never reached *)

Lemma bind_not_stuck_l {A B} (m : M A) (k : A -> M B) app :
  fst (m app) <> Stuck -> (forall a app', fst (k a app') <> Stuck) ->
  fst ((m ≫= k) app) <> Stuck.
Proof.
  intros Hm Hk. unfold mbind, M_bind, bindM.
  destruct (m app) as [[a| |] app']; simpl in *; [apply Hk|done|done].
Qed.

Definition method_depth (method : Method) : nat :=
  match method with
  | On => 3
  | Once => 4
  end.

(** At the depths the definitions use, the bound is never reached. *)
Lemma not_stuck_n n :
  (forall f event app, call_depth f <= n -> fst (call_n n f event app) <> Stuck)
  /\ (forall eventName listener method app,
        method_depth method <= n ->
        fst (_addEventListener_n n eventName listener method app) <> Stuck)
  /\ (forall name callback once app,
        2 <= n ->
        is_undefined (services_get app name) = true \/ call_depth callback < n ->
        fst (onServiceBind_n n name callback once app) <> Stuck).
Proof.
  induction n as [|n (IHc & IHa & IHo)].
  { split; [|split]; intros; try lia.
    - destruct f; simpl in *; lia.
    - destruct method; simpl in *; lia. }
  split; [|split].
  - intros f event app Hd.
    change (call_n (S n) f event) with (call_body (call_n n) (_addEventListener_n n) f event).
    destruct f as [id|hid name callback once|eventName listener method
                   |wid type listener fired]; simpl in Hd |- *.
    + done.
    + destruct (String.eqb (ev_name event) name); [|done].
      apply bind_not_stuck_l; [apply IHc; lia|]. intros _ app'. by destruct once.
    + apply IHa. unfold addEventListener_depth in Hd. destruct method; simpl; lia.
    + destruct fired; [done|].
      apply bind_not_stuck_l; [done|]. intros _ app1.
      apply bind_not_stuck_l; [done|]. intros _ app2. apply IHc. lia.
  - intros eventName listener method app Hn.
    rewrite addEventListener_unfold. unfold _addEventListener_body.
    destruct (0 <? indexOf eventName ":")%Z.
    + unfold mbind, M_bind, bindM, get_service.
      destruct (is_undefined (services_get app _)) eqn:E.
      * apply IHo; [destruct method; simpl in Hn; lia|by left].
      * by destruct (negb _).
    + destruct method; [done|]. unfold EventEmitter_once.
      apply bind_not_stuck_l; [done|]. intros wid app1. apply IHa. simpl in *. lia.
  - intros name callback once app Hn Hc.
    change (onServiceBind_n (S n) name callback once)
      with (onServiceBind_body (call_n n) (_addEventListener_n n) name callback once).
    unfold onServiceBind_body.
    assert (Hreg : forall hid app',
      fst (_addEventListener_n n "service-bind" (BindHandler hid name callback once) On app')
      <> Stuck).
    { intros hid app'. destruct n as [|n']; [lia|].
      by rewrite unqualified_on. }
    unfold mbind, M_bind, bindM, get_service.
    destruct (is_undefined (services_get app name)) eqn:E; simpl.
    + apply Hreg.
    + destruct Hc as [Hc|Hc]; [done|].
      pose proof (IHc callback {| ev_name := name; ev_service := services_get app name |} app)
        as Hcall.
      destruct (call_n n callback _ app) as [[[]| |] app1]; simpl in *; try done.
      * destruct once; [done|]. apply Hreg.
      * apply Hcall. lia.
Qed.

Lemma call_not_stuck f event app : fst (call f event app) <> Stuck.
Proof. unfold call. by apply not_stuck_n. Qed.

Lemma addEventListener_not_stuck eventName listener method app :
  fst (_addEventListener eventName listener method app) <> Stuck.
Proof.
  unfold _addEventListener, addEventListener_depth. apply not_stuck_n.
  destruct method; simpl; lia.
Qed.

Lemma onServiceBind_not_stuck name callback once app :
  fst (onServiceBind name callback once app) <> Stuck.
Proof.
  unfold onServiceBind. apply not_stuck_n; [destruct callback; simpl; lia|right; lia].
Qed.

Lemma run_listeners_not_stuck event : forall snapshot app,
  fst (run_listeners snapshot event app) <> Stuck.
Proof.
  induction snapshot as [|f rest IH]; intros app; [done|]. simpl.
  apply bind_not_stuck_l; [apply call_not_stuck|]. intros _ app2. apply IH.
Qed.

Lemma bind_not_stuck name service app : fst (bind name service app) <> Stuck.
Proof. apply run_listeners_not_stuck. Qed.


End BackboneFacts.

(** ** lib/ipc/client.js *)

Module IpcClientFacts.
Import Wire IpcClient ListFacts.

(** *** Call identifiers *)

Fixpoint has_dot (s : string) : bool :=
  match s with
  | EmptyString => false
  | String c s' => Ascii.eqb c "." || has_dot s'
  end.

Lemma has_dot_app_dot a y : has_dot (a +:+ "." +:+ y) = true.
Proof.
  induction a as [|c a IH]; [done|].
  change (has_dot (String c (a +:+ "." +:+ y)) = true). simpl. rewrite IH. apply orb_true_r.
Qed.

Lemma suffix_after_dot : forall a b x y,
  has_dot x = false -> has_dot y = false ->
  a +:+ "." +:+ x = b +:+ "." +:+ y -> x = y.
Proof.
  induction a as [|c a IH]; intros [|d b] x y Hx Hy H.
  - by injection H.
  - change (String "." x = String d (b +:+ "." +:+ y)) in H. injection H as _ H.
    rewrite H in Hx. by rewrite has_dot_app_dot in Hx.
  - change (String c (a +:+ "." +:+ x) = String "." y) in H. injection H as _ H.
    rewrite <- H in Hy. by rewrite has_dot_app_dot in Hy.
  - change (String c (a +:+ "." +:+ x) = String d (b +:+ "." +:+ y)) in H.
    injection H as _ H. eapply IH; eauto.
Qed.

Lemma pretty_N_char_no_dot x : Ascii.eqb (pretty_N_char x) "." = false.
Proof. unfold pretty_N_char. by repeat case_match. Qed.

Lemma pretty_N_go_no_dot x : forall s, has_dot s = false -> has_dot (pretty_N_go x s) = false.
Proof.
  induction (N.lt_wf_0 x) as [x _ IH]; intros s Hs.
  destruct (decide (x = 0)%N) as [->|Hx]; [by rewrite pretty_N_go_0|].
  rewrite pretty_N_go_step by lia. apply IH.
  - apply N.div_lt; lia.
  - simpl. by rewrite pretty_N_char_no_dot.
Qed.

Lemma pretty_nat_no_dot (n : nat) : has_dot (pretty n) = false.
Proof.
  unfold pretty, pretty_nat, pretty, pretty_N. case_decide; [done|].
  by apply pretty_N_go_no_dot.
Qed.

Lemma call_id_inj name1 n1 name2 n2 :
  call_id name1 n1 = call_id name2 n2 -> n1 = n2.
Proof.
  unfold call_id. intros H. apply suffix_after_dot in H; try apply pretty_nat_no_dot.
  by apply (inj pretty) in H.
Qed.

Lemma call_id_not_inherited name n : inherited (call_id name n) = false.
Proof.
  unfold inherited. apply not_true_is_false. intros H.
  apply existsb_exists in H as (m & Hm & E). apply String.eqb_eq in E.
  assert (Hd : has_dot m = true) by (rewrite <- E; apply has_dot_app_dot).
  unfold ObjectPrototype_names in Hm. simpl in Hm.
  repeat (destruct Hm as [<-|Hm]; [by vm_compute in Hd|]). done.
Qed.

(** *** Promises settle once *)

Lemma settle_fields p s c :
  messages (settle p s c) = messages c /\ midx (settle p s c) = midx c
  /\ pendings (settle p s c) = pendings c /\ timers (settle p s c) = timers c
  /\ next_timer (settle p s c) = next_timer c
  /\ length (promises (settle p s c)) = length (promises c).
Proof.
  unfold settle. destruct (promises c !! p) as [[| |]|]; simpl; try done.
  by rewrite length_insert.
Qed.

Lemma settle_other p s c q : q <> p -> promise_state (settle p s c) q = promise_state c q.
Proof.
  intros Hq. unfold settle, promise_state.
  destruct (promises c !! p) as [[| |]|]; simpl; try done.
  by rewrite list_lookup_insert_ne.
Qed.

Lemma settle_pending p s c :
  p < length (promises c) -> promise_state c p = Pending ->
  promise_state (settle p s c) p = s.
Proof.
  intros Hp Hs. unfold settle, promise_state in *.
  destruct (promises c !! p) as [[| |]|] eqn:E; simpl in *; try done.
  - by rewrite list_lookup_insert_eq.
  - apply lookup_ge_None in E. lia.
Qed.

Lemma settle_settled p s c q :
  promise_state c q <> Pending -> promise_state (settle p s c) q = promise_state c q.
Proof.
  intros Hs. destruct (decide (q = p)) as [->|Hq]; [|by apply settle_other].
  unfold settle, promise_state in *.
  destruct (promises c !! p) as [[| |]|] eqn:E; simpl in *; rewrite ?E in *; done.
Qed.

Lemma pending_dec (s : PromiseState) : {s = Pending} + {s <> Pending}.
Proof. destruct s; [by left|by right..]. Qed.

Lemma settle_not_pending p s c :
  p < length (promises c) -> s <> Pending -> promise_state (settle p s c) p <> Pending.
Proof.
  intros Hp Hs. destruct (pending_dec (promise_state c p)) as [H|H].
  - by rewrite settle_pending.
  - by rewrite settle_settled.
Qed.

(** *** One call among the others *)

Section Tracking.

Variables (msgs : list string) (name : string) (k pid tid : nat).

Let cid : string := call_id name k.
Let entry : PendingCall := {| promise := pid; timerID := tid |}.
Let alarm : TimerCallback := {| timer_call := cid; timer_promise := pid |}.

(** The call [cid] is the only one that holds the promise [pid] and the
    timer [tid], and holds them for as long as the promise is pending. *)
Definition tracked (c : Client) : Prop :=
  messages c = msgs
  /\ pid < length (promises c) /\ tid < next_timer c /\ k < midx c
  /\ (forall id p, pendings c !! id = Some p ->
        (id = cid /\ p = entry) \/ (id <> cid /\ promise p <> pid /\ timerID p <> tid))
  /\ (forall t cb, timers c !! t = Some cb ->
        (t = tid /\ cb = alarm) \/ (t <> tid /\ timer_promise cb <> pid))
  /\ (promise_state c pid = Pending ->
        pendings c !! cid = Some entry /\ timers c !! tid = Some alarm).

Lemma clear_tracked id c :
  tracked c ->
  match clear id c with
  | (Entry p, c') =>
      pendings c !! id = Some p
      /\ pendings c' = delete id (pendings c) /\ timers c' = delete (timerID p) (timers c)
      /\ messages c' = messages c /\ midx c' = midx c /\ next_timer c' = next_timer c
      /\ promises c' = promises c
  | (_, c') => c' = c /\ pendings c !! id = None
  end.
Proof.
  intros _. unfold clear. destruct (pendings c !! id) eqn:E; [done|].
  by destruct (inherited id).
Qed.

(** A handler run for another call. *)
Lemma handle_other (h : Handler) data c :
  id data <> cid -> tracked c ->
  let r := match h with HResolve => resolve data c | HReject => reject data c end in
  tracked (snd r) /\ promise_state (snd r) pid = promise_state c pid.
Proof.
  intros Hid Ht. pose proof Ht as (Hm & Hp & Htm & Hk & Hpe & Hti & Hpend).
  assert (Hgen : forall s,
    let c' := snd (clear (id data) c) in
    match fst (clear (id data) c) with
    | Entry p => tracked (settle (promise p) s c')
                 /\ promise_state (settle (promise p) s c') pid = promise_state c pid
    | _ => tracked c' /\ promise_state c' pid = promise_state c pid
    end).
  { intros s. unfold clear. destruct (pendings c !! id data) as [p|] eqn:E; simpl.
    - destruct (Hpe _ _ E) as [[? ?]|(_ & Hpp & Hpt)]; [done|].
      pose proof (settle_fields (promise p) s
        {| messages := messages c; midx := midx c; pendings := delete (id data) (pendings c);
           timers := delete (timerID p) (timers c); next_timer := next_timer c;
           promises := promises c; sent := sent c |}) as (F1 & F2 & F3 & F4 & F5 & F6).
      simpl in *. split.
      + unfold tracked. rewrite F1, F2, F3, F4, F5, F6.
        split; [done|]. split; [done|]. split; [done|]. split; [done|].
        split; [|split].
        * intros id' p' H. apply lookup_delete_Some in H as [_ H]. by apply Hpe.
        * intros t cb H. apply lookup_delete_Some in H as [_ H]. by apply Hti.
        * rewrite settle_other by done. unfold promise_state at 1. simpl.
          intros Hs. destruct (Hpend Hs) as [H1 H2].
          rewrite lookup_delete_ne by done. rewrite lookup_delete_ne by done. done.
      + by rewrite settle_other.
    - destruct (inherited (id data)); simpl; done. }
  destruct h; simpl; unfold resolve, reject;
    [specialize (Hgen (Fulfilled (message data)))
    |specialize (Hgen (Rejected (ErrorText (message data))))];
    destruct (clear (id data) c) as [[|p|m] c']; simpl in *; done.
Qed.

Lemma dispatch_other data : forall hs c,
  id data <> cid -> tracked c ->
  tracked (snd (dispatch hs data c))
  /\ promise_state (snd (dispatch hs data c)) pid = promise_state c pid.
Proof.
  induction hs as [|h hs IH]; intros c Hid Ht; [done|]. simpl.
  pose proof (handle_other h data c Hid Ht) as [Ht1 Hs1]. simpl in *.
  destruct (match h with HResolve => resolve data c | HReject => reject data c end)
    as [[[]| |] c1]; simpl in *; [|done|done].
  destruct (IH c1 Hid Ht1) as [Ht2 Hs2]. split; [done|congruence].
Qed.

(** A settled promise stays as it is, whatever comes. *)
Lemma handle_settled (h : Handler) data c :
  promise_state c pid <> Pending ->
  let r := match h with HResolve => resolve data c | HReject => reject data c end in
  promise_state (snd r) pid = promise_state c pid.
Proof.
  intros Hs. destruct h; simpl; unfold resolve, reject, clear;
    destruct (pendings c !! id data) as [p|]; simpl;
    try (destruct (inherited (id data)); done);
    by rewrite settle_settled.
Qed.

Lemma dispatch_settled data : forall hs c,
  promise_state c pid <> Pending ->
  promise_state (snd (dispatch hs data c)) pid = promise_state c pid.
Proof.
  induction hs as [|h hs IH]; intros c Hs; [done|]. simpl.
  pose proof (handle_settled h data c Hs) as H1. simpl in H1.
  destruct (match h with HResolve => resolve data c | HReject => reject data c end)
    as [[[]| |] c1]; simpl in *; [|done|done].
  rewrite IH; [done|]. by rewrite H1.
Qed.

Lemma step_settled c i :
  promise_state c pid <> Pending -> promise_state (step c i) pid = promise_state c pid.
Proof.
  intros Hs. destruct i as [n args|topic data|t]; simpl.
  - destruct (existsb _ _); [|done]. simpl. unfold promise_state in *. simpl.
    destruct (promises c !! pid) eqn:E; [|done].
    by rewrite (lookup_app_l_Some _ _ _ _ E).
  - by apply dispatch_settled.
  - unfold fire. destruct (timers c !! t); [|done]. by rewrite settle_settled.
Qed.

Lemma run_settled : forall inputs c,
  promise_state c pid <> Pending -> promise_state (run inputs c) pid = promise_state c pid.
Proof.
  induction inputs as [|i inputs IH]; intros c Hs; [done|]. simpl.
  rewrite IH; rewrite step_settled; done.
Qed.

(** The first handler run for the call while its promise is pending. *)
Lemma handle_own (h : Handler) data c :
  id data = cid -> tracked c -> promise_state c pid = Pending ->
  let r := match h with HResolve => resolve data c | HReject => reject data c end in
  fst r = Normal tt
  /\ promise_state (snd r) pid
     = match h with
       | HResolve => Fulfilled (message data)
       | HReject => Rejected (ErrorText (message data))
       end.
Proof.
  intros Hid (Hm & Hp & Htm & Hk & Hpe & Hti & Hpend) Hs.
  destruct (Hpend Hs) as [H1 H2].
  destruct h; simpl; unfold resolve, reject, clear; rewrite Hid, H1; simpl;
    (split; [done|]); by apply settle_pending.
Qed.

(** A handler run for the call, pending or not: the entry goes, and the
    promise is settled after it. *)
Lemma handle_own_tracked (h : Handler) data c :
  id data = cid -> tracked c ->
  exists c1,
    match h with HResolve => resolve data c | HReject => reject data c end = (Normal tt, c1)
    /\ tracked c1 /\ promise_state c1 pid <> Pending.
Proof.
  intros Hid Ht. pose proof Ht as (Hm & Hp & Htm & Hk & Hpe & Hti & Hpend).
  assert (Hcase : forall s, s <> Pending -> exists c1,
    (match clear (id data) c with
     | (Entry pending, c') => (Normal tt, settle (promise pending) s c')
     | (Stub, c') => (Normal tt, c')
     | (Member _, c') => (Throw NativeTypeError, c')
     end) = (Normal tt, c1) /\ tracked c1 /\ promise_state c1 pid <> Pending).
  { intros s Hns. unfold clear. rewrite Hid.
    destruct (pendings c !! cid) as [p|] eqn:E.
    - destruct (Hpe _ _ E) as [[_ ->]|[? _]]; [|done].
      eexists. split; [reflexivity|].
      pose proof (settle_fields pid s
        {| messages := messages c; midx := midx c; pendings := delete cid (pendings c);
           timers := delete tid (timers c); next_timer := next_timer c;
           promises := promises c; sent := sent c |}) as (F1 & F2 & F3 & F4 & F5 & F6).
      simpl in *.
      assert (Hnp : promise_state (settle pid s
        {| messages := messages c; midx := midx c; pendings := delete cid (pendings c);
           timers := delete tid (timers c); next_timer := next_timer c;
           promises := promises c; sent := sent c |}) pid <> Pending)
        by (by apply settle_not_pending).
      split; [|done].
      unfold tracked. rewrite F1, F2, F3, F4, F5, F6.
      split; [done|]. split; [done|]. split; [done|]. split; [done|].
      split; [|split].
      + intros id' p' H. apply lookup_delete_Some in H as [Hne H].
        destruct (Hpe _ _ H) as [[? ?]|?]; [done|by right].
      + intros t cb H. apply lookup_delete_Some in H as [Hne H].
        destruct (Hti _ _ H) as [[? ?]|?]; [done|by right].
      + intros Hs'. done.
    - unfold cid. rewrite call_id_not_inherited. exists c. split; [done|]. split; [done|].
      intros Hs. apply Hpend in Hs as [Hs _]. fold cid in E. congruence. }
  destruct h; unfold resolve, reject; by apply Hcase.
Qed.

Lemma dispatch_own data : forall hs c,
  id data = cid -> tracked c -> tracked (snd (dispatch hs data c)).
Proof.
  induction hs as [|h hs IH]; intros c Hid Ht; [done|]. simpl.
  destruct (handle_own_tracked h data c Hid Ht) as (c1 & E1 & Ht1 & _).
  rewrite E1. by apply IH.
Qed.

Lemma step_tracked c i : tracked c -> tracked (step c i).
Proof.
  intros Ht. pose proof Ht as (Hm & Hp & Htm & Hk & Hpe & Hti & Hpend).
  destruct i as [n args|topic data|t]; simpl.
  - destruct (existsb _ _); [|done]. unfold invoke, tracked. simpl.
    rewrite length_app. simpl.
    split; [done|]. split; [lia|]. split; [lia|]. split; [lia|].
    assert (Hnew : call_id n (midx c) <> cid).
    { intros E. apply call_id_inj in E. lia. }
    split; [|split].
    + intros id p H. apply lookup_insert_Some in H as [[<- <-]|[_ H]]; [|by apply Hpe].
      right. simpl. split; [done|]. split; lia.
    + intros t cb H. apply lookup_insert_Some in H as [[<- <-]|[_ H]]; [|by apply Hti].
      right. simpl. split; lia.
    + unfold promise_state. simpl. intros Hs.
      assert (Hs' : promise_state c pid = Pending).
      { unfold promise_state. destruct (promises c !! pid) eqn:E.
        - by rewrite (lookup_app_l_Some _ _ _ _ E) in Hs.
        - apply lookup_ge_None in E. lia. }
      destruct (Hpend Hs') as [H1 H2].
      rewrite lookup_insert_ne by done. rewrite lookup_insert_ne by lia. done.
  - destruct (decide (id data = cid)) as [Hid|Hid];
      [by apply dispatch_own|by apply dispatch_other].
  - unfold fire. destruct (timers c !! t) as [cb|] eqn:E; [|done].
    set (c0 := {| messages := messages c; midx := midx c; pendings := pendings c;
                  timers := delete t (timers c); next_timer := next_timer c;
                  promises := promises c; sent := sent c |}).
    pose proof (settle_fields (timer_promise cb)
      (Rejected (TimeoutError (timer_call cb) "IPC message dispatch timeout")) c0)
      as (F1 & F2 & F3 & F4 & F5 & F6).
    unfold tracked. rewrite F1, F2, F3, F4, F5, F6. simpl.
    split; [done|]. split; [done|]. split; [done|]. split; [done|].
    split; [done|]. split.
    + intros t' cb' H. apply lookup_delete_Some in H as [_ H]. by apply Hti.
    + destruct (Hti _ _ E) as [[-> ->]|[Hne Hpp]].
      * simpl. intros Hs. exfalso. revert Hs. apply settle_not_pending; done.
      * rewrite settle_other by done. unfold promise_state at 1. simpl.
        intros Hs. destruct (Hpend Hs) as [H1 H2].
        split; [done|]. by rewrite lookup_delete_ne.
Qed.

Lemma step_invoke_state c n args :
  pid < length (promises c) ->
  promise_state (snd (invoke n args c)) pid = promise_state c pid.
Proof.
  intros Hp. unfold invoke, promise_state. simpl.
  destruct (promises c !! pid) eqn:E.
  - by rewrite (lookup_app_l_Some _ _ _ _ E).
  - apply lookup_ge_None in E. lia.
Qed.

(** While the promise is pending, the inputs decide it as [first_outcome]
    says. *)
Lemma run_pending : forall later c,
  tracked c -> promise_state c pid = Pending ->
  promise_state (run later c) pid = first_outcome msgs cid tid later.
Proof.
  induction later as [|i later IH]; intros c Ht Hs; [done|].
  pose proof Ht as (Hm & Hp & Htm & Hk & Hpe & Hti & Hpend).
  pose proof (step_tracked c i Ht) as Ht1.
  change (run (i :: later) c) with (run later (step c i)).
  destruct i as [n args|topic data|t]; cbn [first_outcome].
  - apply IH; [done|]. unfold step. destruct (existsb _ _); [|done].
    by rewrite step_invoke_state.
  - destruct (String.eqb (id data) cid) eqn:Eid.
    + apply String.eqb_eq in Eid. unfold step in *. rewrite Hm in *.
      destruct (handlers_on topic msgs) as [|h hs] eqn:Eh.
      * by apply IH.
      * cbn [dispatch].
        destruct (handle_own h data c Eid Ht Hs) as [E1 E2]. cbv zeta in E1, E2.
        destruct (match h with HResolve => resolve data c | HReject => reject data c end)
          as [r c1] eqn:Er. cbn [fst snd] in E1, E2. subst r.
        rewrite run_settled; rewrite dispatch_settled; rewrite E2; by destruct h.
    + apply String.eqb_neq in Eid.
      destruct (dispatch_other data (handlers_on topic (messages c)) c Eid Ht) as [Ht' Hs'].
      apply IH; [done|]. unfold step. by rewrite Hs'.
  - destruct (Hpend Hs) as [H1 H2]. unfold step in *.
    destruct (t =? tid) eqn:Et.
    + apply Nat.eqb_eq in Et. subst t. unfold fire. rewrite H2.
      rewrite run_settled; rewrite settle_pending; done.
    + apply Nat.eqb_neq in Et. apply IH; [done|].
      unfold fire. destruct (timers c !! t) as [cb|] eqn:E; [|done].
      destruct (Hti _ _ E) as [[? _]|[_ Hne]]; [done|].
      by rewrite settle_other.
Qed.

End Tracking.

(** *** Every state a client reaches *)

Definition wf (c : Client) : Prop :=
  (forall id p, pendings c !! id = Some p ->
     promise p < length (promises c) /\ timerID p < next_timer c)
  /\ (forall t cb, timers c !! t = Some cb ->
        timer_promise cb < length (promises c) /\ t < next_timer c).

Lemma wf_connect msgs : wf (connect msgs).
Proof. split; intros ? ? H; simpl in H; by rewrite lookup_empty in H. Qed.

Lemma wf_settle p s c : wf c -> wf (settle p s c).
Proof.
  intros [H1 H2]. pose proof (settle_fields p s c) as (F1 & F2 & F3 & F4 & F5 & F6).
  unfold wf. by rewrite F3, F4, F5, F6.
Qed.

Lemma wf_handle (h : Handler) data c :
  wf c ->
  let r := match h with HResolve => resolve data c | HReject => reject data c end in
  wf (snd r) /\ messages (snd r) = messages c.
Proof.
  intros [H1 H2].
  assert (Hcase : forall s,
    let r := (match clear (id data) c with
              | (Entry pending, c') => (Normal tt, settle (promise pending) s c')
              | (Stub, c') => (Normal tt, c')
              | (Member _, c') => (@Throw unit NativeTypeError, c')
              end) in
    wf (snd r) /\ messages (snd r) = messages c).
  { intros s. unfold clear. destruct (pendings c !! id data) as [p|] eqn:E; simpl.
    - split.
      + apply wf_settle. split; simpl.
        * intros id' p' H. apply lookup_delete_Some in H as [_ H]. by eapply H1.
        * intros t cb H. apply lookup_delete_Some in H as [_ H]. by eapply H2.
      + by destruct (settle_fields (promise p) s
          {| messages := messages c; midx := midx c; pendings := delete (id data) (pendings c);
             timers := delete (timerID p) (timers c); next_timer := next_timer c;
             promises := promises c; sent := sent c |}) as (F1 & _).
    - by destruct (inherited (id data)). }
  destruct h; unfold resolve, reject; apply Hcase.
Qed.

Lemma wf_dispatch data : forall hs c,
  wf c -> wf (snd (dispatch hs data c))
          /\ messages (snd (dispatch hs data c)) = messages c.
Proof.
  induction hs as [|h hs IH]; intros c Hw; [done|]. simpl.
  pose proof (wf_handle h data c Hw) as [Hw1 Hm1]. simpl in *.
  destruct (match h with HResolve => resolve data c | HReject => reject data c end)
    as [[[]| |] c1]; simpl in *; [|done|done].
  destruct (IH c1 Hw1) as [Hw2 Hm2]. split; [done|congruence].
Qed.

Lemma wf_step c i : wf c -> wf (step c i) /\ messages (step c i) = messages c.
Proof.
  intros Hw. pose proof Hw as [H1 H2]. destruct i as [n args|topic data|t]; simpl.
  - destruct (existsb _ _); [|done]. split; [|done]. unfold invoke, wf. simpl.
    rewrite length_app. simpl. split.
    + intros id p H. apply lookup_insert_Some in H as [[_ <-]|[_ H]]; simpl; [lia|].
      apply H1 in H. lia.
    + intros t cb H. apply lookup_insert_Some in H as [[<- <-]|[_ H]]; simpl; [lia|].
      apply H2 in H. lia.
  - by apply wf_dispatch.
  - unfold fire. destruct (timers c !! t) as [cb|]; [|done]. split.
    + apply wf_settle. split; simpl; [done|].
      intros t' cb' H. apply lookup_delete_Some in H as [_ H]. by eapply H2.
    + by destruct (settle_fields (timer_promise cb)
        (Rejected (TimeoutError (timer_call cb) "IPC message dispatch timeout"))
        {| messages := messages c; midx := midx c; pendings := pendings c;
           timers := delete t (timers c); next_timer := next_timer c;
           promises := promises c; sent := sent c |}) as (F1 & _).
Qed.

Lemma wf_run msgs : forall history c,
  wf c -> messages c = msgs ->
  wf (run history c) /\ messages (run history c) = msgs.
Proof.
  induction history as [|i history IH]; intros c Hw Hm; [done|]. simpl.
  destruct (wf_step c i Hw) as [Hw1 Hm1]. apply IH; [done|congruence].
Qed.

Lemma invoke_tracked name args c :
  wf c ->
  tracked (messages c) name (midx c) (length (promises c)) (next_timer c)
    (snd (invoke name args c))
  /\ promise_state (snd (invoke name args c)) (length (promises c)) = Pending.
Proof.
  intros [H1 H2]. split.
  - unfold tracked, invoke. simpl. rewrite length_app. simpl.
    split; [done|]. split; [lia|]. split; [lia|]. split; [lia|].
    split; [|split].
    + intros id p H. apply lookup_insert_Some in H as [[<- <-]|[Hne H]]; [by left|].
      right. apply H1 in H. split; [done|]. lia.
    + intros t cb H. apply lookup_insert_Some in H as [[<- <-]|[Hne H]]; [by left|].
      right. apply H2 in H. split; [done|]. lia.
    + intros _. by rewrite !lookup_insert_eq.
  - unfold promise_state, invoke. simpl.
    by rewrite lookup_app_r, Nat.sub_diag.
Qed.

(** The topics of a registered message name carry its handlers. *)
Lemma handlers_on_message name : forall msgs,
  In name msgs -> exists hs, handlers_on ("message." +:+ name) msgs = HResolve :: hs.
Proof.
  unfold handlers_on. induction msgs as [|n msgs IH]; intros Hin; [done|].
  cbn [handlers flat_map app].
  set (P := fun h : string * Handler => String.eqb (fst h) ("message." +:+ name)).
  change (exists hs, map snd (filter (fun h => P h)
            (("message." +:+ n, HResolve) :: ("error." +:+ n, HReject) :: handlers msgs))
          = HResolve :: hs).
  destruct (P ("message." +:+ n, HResolve)) eqn:E.
  - rewrite (filter_cons_true P) by done. cbn [map snd]. eauto.
  - rewrite (filter_cons_false P) by done.
    rewrite (filter_cons_false P) by reflexivity.
    apply IH. destruct Hin as [->|Hin]; [|done].
    unfold P in E. cbn [fst] in E. by rewrite String.eqb_refl in E.
Qed.

Lemma handlers_on_error name : forall msgs,
  In name msgs -> exists hs, handlers_on ("error." +:+ name) msgs = HReject :: hs.
Proof.
  unfold handlers_on. induction msgs as [|n msgs IH]; intros Hin; [done|].
  cbn [handlers flat_map app].
  set (P := fun h : string * Handler => String.eqb (fst h) ("error." +:+ name)).
  change (exists hs, map snd (filter (fun h => P h)
            (("message." +:+ n, HResolve) :: ("error." +:+ n, HReject) :: handlers msgs))
          = HReject :: hs).
  rewrite (filter_cons_false P) by reflexivity.
  destruct (P ("error." +:+ n, HReject)) eqn:E.
  - rewrite (filter_cons_true P) by done. cbn [map snd]. eauto.
  - rewrite (filter_cons_false P) by done.
    apply IH. destruct Hin as [->|Hin]; [|done].
    unfold P in E. cbn [fst] in E. by rewrite String.eqb_refl in E.
Qed.

(** C2.  For every message call a client issues, in whatever state it has
    reached since [connect]: the promise it returns is pending, and after
    any inputs that follow it stands as the first of them that is a
    response or an error carrying the call's id, or the expiry of the
    call's timer, decides; whatever comes after that first one leaves the
    promise as it is.  A response with the call's id on [message.<name>]
    decides it as fulfilled with the result, an error with the call's id on
    [error.<name>] as rejected with the error text, the expiry of the timer
    as rejected with the timeout error. *)
Theorem call_completes_once msgs history name args later :
  let c1 := run history (connect msgs) in
  let p := fst (invoke name args c1) in
  let c2 := snd (invoke name args c1) in
  let call := call_id name (midx c1) in
  promise_state c2 p = Pending
  /\ promise_state (run later c2) p = first_outcome msgs call (next_timer c1) later
  /\ (In name msgs ->
      forall result,
        first_outcome msgs call (next_timer c1)
          (Receive ("message." +:+ name) {| id := call; message := result |} :: later)
        = Fulfilled result)
  /\ (In name msgs ->
      forall text,
        first_outcome msgs call (next_timer c1)
          (Receive ("error." +:+ name) {| id := call; message := text |} :: later)
        = Rejected (ErrorText text))
  /\ first_outcome msgs call (next_timer c1) (TimerFires (next_timer c1) :: later)
     = Rejected (TimeoutError call "IPC message dispatch timeout").
Proof.
  intros c1 p c2 call.
  destruct (wf_run msgs history (connect msgs) (wf_connect msgs) eq_refl) as [Hw Hm].
  fold c1 in Hw, Hm.
  destruct (invoke_tracked name args c1 Hw) as [Ht Hs]. rewrite Hm in Ht.
  split; [done|]. split; [by apply (run_pending msgs name (midx c1))|].
  split; [|split].
  - intros Hin result. cbn [first_outcome id message]. rewrite String.eqb_refl.
    by destruct (handlers_on_message name msgs Hin) as [hs ->].
  - intros Hin text. cbn [first_outcome id message]. rewrite String.eqb_refl.
    by destruct (handlers_on_error name msgs Hin) as [hs ->].
  - cbn [first_outcome]. by rewrite Nat.eqb_refl.
Qed.

(** C4.  The code at the claim's failing input: one call, then the
    expiry of its timer.  The promise is rejected with the timeout error and
    the entry of the call is still in [pendings]: the timeout callback calls
    the promise's own [reject], not [clear]. *)
Theorem timeout_leaves_pending_entry :
  let c := run [Invoke "getMessage" []; TimerFires 0] (connect ["getMessage"]) in
  pendings c !! "getMessage.0" = Some {| promise := 0; timerID := 0 |}
  /\ promise_state c 0
     = Rejected (TimeoutError "getMessage.0" "IPC message dispatch timeout").
Proof. vm_compute. done. Qed.

(** A response that arrives after the timeout finds the entry and takes it
    out then; the promise stays rejected. *)
Lemma late_response_clears_stale_entry :
  let c := run [Invoke "getMessage" []; TimerFires 0;
                Receive "message.getMessage" {| id := "getMessage.0"; message := PStr "late" |}]
               (connect ["getMessage"]) in
  pendings c !! "getMessage.0" = None
  /\ promise_state c 0
     = Rejected (TimeoutError "getMessage.0" "IPC message dispatch timeout").
Proof. vm_compute. done. Qed.

End IpcClientFacts.

(** ** lib/ipc/server.js *)

Module IpcServerFacts.
Import Wire IpcServer.

(** C7.  The code at the claim's failing input: a handler that throws
    [undefined] (or rejects without a reason).  The [catch] block reads
    [err.description] of it, which throws; nothing is emitted to the client
    and the listener's own promise is rejected, unhandled. *)
Theorem handler_failing_with_undefined name id args socket :
  on_message name (fun _ => Fails FUndefined) {| req_id := id; req_args := args |} socket
  = (Throw NativeTypeError, []).
Proof. reflexivity. Qed.

(** For a failure that is neither [undefined] nor [null] and whose
    [toString()] returns, the error is sent back, with the message taken in
    the order [description], [message], [toString()], each used when
    truthy. *)
Lemma handler_failure_reported name handler request socket description message toString :
  handler (match req_args request with ArgArray items => items | ArgOther v => [v] end)
    = Fails (FValue description message (Normal toString)) ->
  on_message name handler request socket
  = (Normal tt,
     [{| to_socket := socket; topic := "error." +:+ name;
         data := {| Wire.id := req_id request;
                    Wire.message := if truthy description then description
                                    else if truthy message then message
                                    else toString |} |}]).
Proof.
  intros H. unfold on_message. rewrite H. simpl.
  destruct (truthy description); [done|]. by destruct (truthy message).
Qed.

End IpcServerFacts.

(** * Further properties *)

Module InterfaceDefLaws.
Import InterfaceDef InterfaceDefFacts.

(** What a property declared with the type tag [type] asks of the value
    [v] found under it. *)
Definition holds (type : IfDef) (v : Value) : bool :=
  match type with
  | DStr s => match Tests_get s with Some isa => isa v | None => false end
  | _ => false
  end.

(** A definition whose types are all tags of [Tests]. *)
Definition tagged (props : list (string * IfDef)) : Prop :=
  forall k t, In (k, t) props -> exists s isa, t = DStr s /\ Tests_get s = Some isa.

Definition tag_tests (props : list (string * IfDef)) (ks : list string) : list (string * Isa) :=
  map (fun name => (name, IsaTest (holds (obj_get props name)))) ks.

Lemma tests_of_tagged compile props : forall ks,
  tagged props ->
  (forall k, In k ks -> In k (keys props)) ->
  map_completion
    (fun name => isa ← test compile (obj_get props name) name; Normal (name, isa)) ks
  = Normal (tag_tests props ks).
Proof.
  induction ks as [|k ks IH]; intros Hall Hks; simpl; [done|].
  destruct (Hall k (obj_get props k)) as (s & isa & Hs & Hisa).
  { apply obj_get_in, Hks. by left. }
  rewrite Hs. simpl. rewrite Hisa. simpl.
  rewrite IH; [|done|intros; apply Hks; by right]. simpl.
  unfold holds. rewrite Hisa. done.
Qed.

Lemma reduce_tag_tests props get ty arr : forall ks ok,
  (fix reduce (ts : list (string * Isa)) (ok : bool) {struct ts} : Completion bool :=
     match ts with
     | [] => Normal ok
     | (name, isa) :: ts' =>
         r ← (if ok then v ← get_prop (Val ty arr get) name; call_isa isa v else Normal false);
         reduce ts' r
     end) (tag_tests props ks) ok
  = Normal (ok && forallb (fun k => holds (obj_get props k) (get k)) ks).
Proof.
  induction ks as [|k ks IH]; intros ok; simpl.
  - by rewrite andb_true_r.
  - destruct ok; simpl; rewrite IH; done.
Qed.



Lemma call_tag_tests props ks obj :
  call (DIfTest (tag_tests props ks)) obj =
  match obj with
  | Undefined | Null => match ks with [] => Normal true | _ => Throw NativeTypeError end
  | Val _ _ get => Normal (forallb (fun k => holds (obj_get props k) (get k)) ks)
  end.
Proof.
  destruct obj as [| |ty arr get].
  - destruct ks; done.
  - destruct ks; done.
  - simpl. apply (reduce_tag_tests props get ty arr ks true).
Qed.

Lemma compile_n_tagged n props :
  ~ In "__IsIFDef" (keys props) -> tagged props ->
  compile_n (S n) (DObj props) = Normal (DIfTest (tag_tests props (keys props))).
Proof.
  intros Hm Ht.
  change (compile_n (S n) (DObj props)) with (compile_body (compile_n n) (DObj props)).
  unfold compile_body. simpl get_marker. rewrite obj_get_absent by done. simpl.
  by rewrite tests_of_tagged.
Qed.

Lemma compile_n_nested n name inner :
  name <> "__IsIFDef" -> ~ In "__IsIFDef" (keys inner) -> tagged inner ->
  compile_n (S (S n)) (DObj [(name, DObj inner)])
  = Normal (DIfTest [(name, IsaNested (DIfTest (tag_tests inner (keys inner))))]).
Proof.
  intros Hn Hm Ht.
  assert (E : compile_n (S (S n)) (DObj [(name, DObj inner)])
              = compile_body (compile_n (S n)) (DObj [(name, DObj inner)])) by reflexivity.
  rewrite E. unfold compile_body. cbn -[compile_n].
  apply String.eqb_neq in Hn. rewrite Hn. cbn -[compile_n].
  rewrite String.eqb_refl. cbn -[compile_n].
  rewrite compile_n_tagged by done. done.
Qed.


(** X5.  Whatever [compile] returns, [compile] returns unchanged: a
    compiled predicate can be given wherever a definition is expected. *)
Theorem compile_idempotent ifdef iftest :
  compile ifdef = Normal iftest -> compile iftest = Normal iftest.
Proof.
  unfold compile.
  change (compile_n (S ?d) ?x) with (compile_body (compile_n d) x).
  unfold compile_body. intros H.
  destruct (get_marker ifdef) as [marker| |] eqn:Em; simpl in H; try done.
  destruct (truthy marker) eqn:Et.
  - injection H as <-. rewrite Em. simpl. by rewrite Et.
  - destruct (match ifdef with
              | DArr items => Normal (array_to_object items)
              | DObj props => Normal props
              | _ => Throw (Error "Bad interface definition")
              end) as [props| |]; simpl in H; try done.
    destruct (map_completion _ _) as [tests| |]; simpl in H; try done.
    injection H as <-. done.
Qed.

Lemma map_completion_stops {A B} (f : A -> Completion B) (x : A) e : forall l1 l2,
  (forall a, In a l1 -> exists b, f a = Normal b) ->
  f x = Throw e ->
  map_completion f (l1 ++ x :: l2) = Throw e.
Proof.
  induction l1 as [|a l1 IH]; intros l2 H1 Hx; simpl.
  - by rewrite Hx.
  - destruct (H1 a) as [b Hb]; [by left|]. rewrite Hb. simpl.
    rewrite IH; [done| |done]. intros a' Ha'. apply H1. by right.
Qed.

Lemma obj_get_app_l (before rest : list (string * IfDef)) k :
  In k (keys before) -> obj_get (before ++ rest) k = obj_get before k.
Proof.
  induction before as [|[k0 v0] before IH]; simpl; [done|].
  destruct (String.eqb k0 k) eqn:E; [done|].
  apply String.eqb_neq in E. intros [?|?]; [done|]. by apply IH.
Qed.

Lemma obj_get_app_r (before rest : list (string * IfDef)) k :
  ~ In k (keys before) -> obj_get (before ++ rest) k = obj_get rest k.
Proof.
  induction before as [|[k0 v0] before IH]; simpl; [done|].
  intros H. destruct (String.eqb k0 k) eqn:E.
  - apply String.eqb_eq in E. naive_solver.
  - apply IH. naive_solver.
Qed.

(** X4.  [compile] refuses a tag that is neither one of the six of
    [Tests] nor the name of a member of [Object.prototype] (such as
    ['constructor'], which the lookup [Tests[type]] finds) when the
    definition is compiled, not when the predicate is applied: for an
    object definition without a property [__IsIFDef] whose first properties
    have tags of [Tests] and whose next property [name], not among them,
    has such a tag [type], it throws the [Error] 'Unsupported type '<type>'
    for property '<name>''. *)
Theorem unsupported_type_is_refused before name type after :
  ~ In "__IsIFDef" (keys (before ++ (name, DStr type) :: after)) ->
  tagged before ->
  ~ In name (keys before) ->
  Tests_get type = None ->
  inherited type = false ->
  compile (DObj (before ++ (name, DStr type) :: after))
  = Throw (Error ("Unsupported type '" +:+ type +:+ "' for property '" +:+ name +:+ "'")).
Proof.
  intros Hm Ht Hn Hty _. unfold compile.
  change (compile_n (S ?d) ?x) with (compile_body (compile_n d) x).
  unfold compile_body. simpl get_marker. rewrite obj_get_absent by done. simpl.
  unfold keys. rewrite map_app. simpl map. fold (keys before). fold (keys after).
  rewrite (map_completion_stops _ name
    (Error ("Unsupported type '" +:+ type +:+ "' for property '" +:+ name +:+ "'"))); [done| |].
  - intros k Hk. rewrite obj_get_app_l by done.
    destruct (Ht k (obj_get before k)) as (s & isa & Hs & Hisa); [by apply obj_get_in|].
    rewrite Hs. simpl. rewrite Hisa. simpl. eauto.
  - rewrite obj_get_app_r by done. simpl. rewrite String.eqb_refl. simpl. by rewrite Hty.
Qed.



(** *** Instances *)

Definition a_function : Value := Val TyFunction false (fun _ => Undefined).

Definition a_string : Value := Val TyString false (fun _ => Undefined).

(** A candidate whose [getMessage] is a function and whose [name] is a
    string. *)
Definition a_service : Value :=
  Val TyObject false
    (fun name => if String.eqb name "getMessage" then a_function
                 else if String.eqb name "name" then a_string else Undefined).

(** A candidate whose [db] is such a service. *)
Definition a_backbone : Value :=
  Val TyObject false (fun name => if String.eqb name "db" then a_service else Undefined).

Lemma compile_idempotent_witness :
  compile (DIfTest (object_tests ["a"])) = Normal (DIfTest (object_tests ["a"])).
Proof. apply (compile_idempotent (DArr ["a"])). reflexivity. Defined.



Lemma unsupported_type_is_refused_witness :
  compile (DObj [("name", DStr "string"); ("port", DStr "integer")])
  = Throw (Error "Unsupported type 'integer' for property 'port'").
Proof.
  apply (unsupported_type_is_refused [("name", DStr "string")] "port" "integer" []).
  - simpl. intros [H|[H|[]]]; discriminate H.
  - intros k t [H|[]]; injection H as <- <-; eexists _, _; split; reflexivity.
  - simpl. intros [H|[]]; discriminate H.
  - reflexivity.
  - reflexivity.
Defined.

End InterfaceDefLaws.

(** ** [readArgNames], [load] and [start] on every input *)

Module StartLaws.
Import Backbone BackboneFacts Terms.

(** *** Service names that are identifiers *)

Lemma word_not_space c : is_word c = true -> is_space c = false.
Proof.
  destruct c as [[] [] [] [] [] [] [] []]; vm_compute; congruence.
Qed.

Lemma word_not_paren c : is_word c = true -> Ascii.eqb c "(" = false.
Proof.
  destruct c as [[] [] [] [] [] [] [] []]; vm_compute; congruence.
Qed.

Lemma match_arg_list_word s : word_only s = true -> match_arg_list s = None.
Proof.
  destruct s as [|c s]; [done|]. simpl. intros H. apply andb_true_iff in H as [Hc _].
  unfold match_arg_list. simpl. rewrite (word_not_space c Hc).
  by rewrite (word_not_paren c Hc).
Qed.

Lemma skip_space_word s : word_only s = true -> skip_while is_space s = s.
Proof.
  destruct s as [|c s]; [done|]. simpl. intros H. apply andb_true_iff in H as [Hc _].
  by rewrite (word_not_space c Hc).
Qed.

Lemma match_function_name_word s : word_only s = true -> match_function_name s = None.
Proof.
  intros H. unfold match_function_name. rewrite skip_space_word by done.
  by rewrite Nat.ltb_irrefl.
Qed.

Lemma strip_prefix_word_only p : forall s rest,
  word_only s = true -> strip_prefix p s = Some rest -> word_only rest = true.
Proof.
  induction p as [|a p IH]; intros s rest Hs H; simpl in H.
  - by injection H as <-.
  - destruct s as [|b s]; [done|]. destruct (Ascii.eqb a b); [|done].
    simpl in Hs. apply andb_true_iff in Hs as [_ Hs]. by eapply IH.
Qed.

(** No pattern of [readArgNames] matches an identifier. *)
Lemma exec_function_args_word name :
  word_only name = true -> exec_function_args name = None.
Proof.
  intros H. unfold exec_function_args.
  rewrite (match_arg_list_word name H).
  destruct (strip_prefix "function" name) as [rest|] eqn:E; [|done].
  pose proof (strip_prefix_word_only _ _ _ H E) as Hr.
  by rewrite (match_function_name_word rest Hr), (match_arg_list_word rest Hr).
Qed.

(** *** [start] never gets past its first layer *)

(** X6.  For every array with at least one layer, [start] does not
    resolve, and what it does is what it does for the first layer alone:
    the layers after the first are never looked at.  With a [log] that has
    no [debug] method it rejects with a [TypeError] before anything is
    bound. *)
Theorem start_stops_at_first_layer fuel layer rest log :
  resolved (fst (start (S fuel) (ArrayOf (layer :: rest)) log)) = false
  /\ start (S fuel) (ArrayOf (layer :: rest)) log = start (S fuel) (ArrayOf [layer]) log
  /\ match log with
     | LoggerObject => True
     | _ => start (S fuel) (ArrayOf (layer :: rest)) log = (Throw NativeTypeError, new_App)
     end.
Proof.
  unfold start. rewrite !start_loop_first. split; [|split].
  - destruct (start_layer log layer new_App) as [[[]| |] app']; done.
  - done.
  - by destruct log.
Qed.

(** *** A first layer of plain values *)

Lemma start_layer_object defs app :
  start_layer LoggerObject (LayerObject defs) app
  = (pending ← map_M (fun name => load name (layer_get (LayerObject defs) name)) (map fst defs);
     services ← await_all pending;
     bind_each LoggerObject (map fst defs) services) app.
Proof. reflexivity. Qed.

Lemma layer_get_values values name v :
  NoDup (map fst values) -> In (name, v) values ->
  layer_get (values_layer values) name = DefValue v.
Proof.
  unfold layer_get, values_layer.
  induction values as [|[k w] values IH]; intros Hnd Hin; [done|].
  simpl in Hnd. apply NoDup_cons in Hnd as [Hk Hnd]. simpl.
  destruct (String.eqb k name) eqn:E.
  - apply String.eqb_eq in E. subst k. destruct Hin as [Hin|Hin]; [by injection Hin as ->|].
    exfalso. apply Hk. apply list_elem_of_In. apply in_map_iff. by exists (name, v).
  - destruct Hin as [Hin|Hin]; [injection Hin as -> ->; by rewrite String.eqb_refl in E|].
    by apply IH.
Qed.

Lemma load_values layer app : forall values : list (string * Value),
  (forall name v, In (name, v) values -> layer_get layer name = DefValue v) ->
  map_M (fun name => load name (layer_get layer name)) (map fst values) app
  = (Normal (map (fun entry => {| settles_at := 0; outcome := Normal (snd entry) |}) values),
     app).
Proof.
  induction values as [|[k v] values IH]; intros H; [done|]. simpl.
  munfold. rewrite (H k v) by (by left). simpl.
  rewrite IH; [done|]. intros name w Hin. apply H. by right.
Qed.

Lemma await_values app : forall values : list (string * Value),
  await_all (map (fun entry => {| settles_at := 0; outcome := Normal (snd entry) |}) values) app
  = (Normal (map snd values), app).
Proof.
  intros values. unfold await_all.
  assert (H1 : first_rejection
    (map (fun entry : string * Value =>
            {| settles_at := 0; outcome := Normal (snd entry) |}) values) = None).
  { induction values as [|e values IH]; simpl; [done|]. by rewrite IH. }
  rewrite H1. unfold lift. f_equal.
  induction values as [|e values IH]; simpl; [done|]. by rewrite IH.
Qed.

Lemma bind_each_values : forall (values : list (string * Value)) app,
  bind_each LoggerObject (map fst values) (map snd values) app = run_binds values app.
Proof.
  induction values as [|[k v] values IH]; intros app; [done|]. simpl. munfold.
  destruct (bind k v app) as [[[]| |] app1]; [apply IH|done|done].
Qed.

Lemma run_binds_quiet : forall (values : list (string * Value)) services,
  run_binds values {| services := services; listeners := ∅; next_id := 0; calls := [] |}
  = (Normal tt,
     {| services := fold_left
                      (fun services entry =>
                         if String.eqb (fst entry) "__proto__" then services
                         else <[fst entry := snd entry]> services) values services;
        listeners := ∅; next_id := 0; calls := [] |}).
Proof.
  induction values as [|[k v] values IH]; intros services; [done|].
  simpl. munfold. unfold bind at 1. munfold. unfold set_service, emit, listeners_of. simpl.
  rewrite lookup_empty. simpl. apply IH.
Qed.


(** *** A first layer with a factory *)

Lemma load_unchanged layer app : forall names,
  Forall (fun name => word_only name = true) names ->
  map_M (fun name => load name (layer_get layer name)) names app
  = (Normal (map (fun name =>
                    match layer_get layer name with
                    | DefValue v => {| settles_at := 0; outcome := Normal v |}
                    | DefFunction _ =>
                        {| settles_at := 0; outcome := Throw (ReferenceError "fns") |}
                    end) names), app).
Proof.
  induction names as [|name names IH]; intros H; [done|].
  apply Forall_cons in H as [Hn H]. simpl. munfold.
  destruct (layer_get layer name) as [v|f] eqn:E.
  - simpl. by rewrite IH.
  - rewrite load_factory_fails by (by apply exec_function_args_word). by rewrite IH.
Qed.

Lemma first_rejection_fns layer : forall names,
  existsb (fun name => is_factory (layer_get layer name)) names = true ->
  first_rejection
    (map (fun name =>
            match layer_get layer name with
            | DefValue v => {| settles_at := 0; outcome := Normal v |}
            | DefFunction _ => {| settles_at := 0; outcome := Throw (ReferenceError "fns") |}
            end) names)
  = Some (0, ReferenceError "fns").
Proof.
  induction names as [|name names IH]; intros H; [done|]. simpl in *.
  destruct (layer_get layer name) as [v|f]; simpl in *.
  - by apply IH.
  - destruct (existsb _ names); [by rewrite IH|].
    destruct (first_rejection _) as [[t e]|] eqn:E; [|done].
    by destruct (t <? 0) eqn:Et.
Qed.

(** X8.  For a first layer whose names are all identifiers and that
    defines at least one of them by a function, with a logger: [start]
    rejects with the [ReferenceError] of [fns], and nothing is bound, not
    even the plain values of the layer; no factory is called. *)
Theorem start_rejects_a_factory fuel defs rest :
  Forall (fun name => word_only name = true) (map fst defs) ->
  existsb (fun name => is_factory (layer_get (LayerObject defs) name)) (map fst defs) = true ->
  start (S fuel) (ArrayOf (LayerObject defs :: rest)) LoggerObject
  = (Throw (ReferenceError "fns"), new_App).
Proof.
  intros Hw Hf. unfold start. rewrite start_loop_first.
  rewrite start_layer_object. munfold.
  rewrite load_unchanged by done.
  unfold await_all. rewrite first_rejection_fns by done. done.
Qed.


(** *** Instances *)

(** The factory [function db( settings ) { ... }], which returns a
    service. *)
Definition db_factory : Factory :=
  {| source := "function db( settings ) { return { getMessage: () => settings.message } }";
     apply := fun _ => mret (Immediately (VObject 1 false ["getMessage"])) |}.


Lemma start_rejects_a_factory_witness :
  start 1 (ArrayOf [LayerObject [("settings", DefValue (VNum 1));
                                 ("db", DefFunction db_factory)]]) LoggerObject
  = (Throw (ReferenceError "fns"), new_App).
Proof.
  apply (start_rejects_a_factory 0
           [("settings", DefValue (VNum 1)); ("db", DefFunction db_factory)] []).
  - repeat constructor.
  - reflexivity.
Defined.

End StartLaws.

(** ** [readArgNames] on the source text of a function *)

Module ArgNamesLaws.
Import Backbone BackboneFacts Terms StartLaws.

Lemma app_String c s t : String c s +:+ t = String c (s +:+ t).
Proof. reflexivity. Qed.

Lemma app_empty_l s : "" +:+ s = s.
Proof. reflexivity. Qed.

Lemma app_empty_r s : s +:+ "" = s.
Proof. induction s as [|c s IH]; [done|]. by rewrite app_String, IH. Qed.

Lemma has_char_app c s t : has_char c (s +:+ t) = has_char c s || has_char c t.
Proof.
  induction s as [|a s IH]; [done|]. rewrite app_String. simpl. by rewrite IH, orb_assoc.
Qed.

Lemma word_has_no c s : is_word c = false -> word_only s = true -> has_char c s = false.
Proof.
  intros Hc. induction s as [|a s IH]; [done|]. simpl. intros H.
  apply andb_true_iff in H as [Ha Hs]. rewrite IH by done.
  destruct (Ascii.eqb a c) eqn:E; [|done]. apply Ascii.eqb_eq in E. congruence.
Qed.

Lemma identifier_word s : identifier s = true -> word_only s = true.
Proof. unfold identifier. intros H. by apply andb_true_iff in H as [_ H]. Qed.

Lemma identifier_cons s :
  identifier s = true -> exists c s', s = String c s' /\ is_word c = true /\ word_only s' = true.
Proof.
  unfold identifier. destruct s as [|c s']; [done|]. simpl. intros H.
  apply andb_true_iff in H as [Hc Hs]. eauto.
Qed.

Lemma concat_cons sep a b l :
  String.concat sep (a :: b :: l) = a +:+ sep +:+ String.concat sep (b :: l).
Proof. reflexivity. Qed.

Lemma concat_has_no c (l : list string) :
  has_char c ", " = false ->
  Forall (fun p => has_char c p = false) l ->
  has_char c (String.concat ", " l) = false.
Proof.
  intros Hsep. induction l as [|a [|b l] IH]; intros H; [done|..].
  - by apply Forall_cons in H as [H _].
  - apply Forall_cons in H as [Ha H]. rewrite concat_cons, !has_char_app, Ha, Hsep.
    by rewrite IH.
Qed.

(** *** The pieces of the pattern *)

Lemma strip_prefix_app p s : strip_prefix p (p +:+ s) = Some s.
Proof.
  induction p as [|a p IH]; [by destruct s|]. rewrite app_String. simpl.
  by rewrite Ascii.eqb_refl.
Qed.

Lemma skip_word_app w c s :
  word_only w = true -> is_word c = false ->
  skip_while is_word (w +:+ String c s) = String c s.
Proof.
  intros Hw Hc. induction w as [|a w IH].
  - change (skip_while is_word (String c s) = String c s). simpl. by rewrite Hc.
  - simpl in Hw. apply andb_true_iff in Hw as [Ha Hw]. rewrite app_String. simpl.
    rewrite Ha. by apply IH.
Qed.

Lemma take_until_app c a s :
  has_char c a = false ->
  take_while (fun x => negb (Ascii.eqb x c)) (a +:+ String c s) = a.
Proof.
  induction a as [|x a IH]; intros H.
  - change (take_while (fun x => negb (Ascii.eqb x c)) (String c s) = ""). simpl.
    by rewrite Ascii.eqb_refl.
  - simpl in H. apply orb_false_iff in H as [Hx Ha]. rewrite app_String. simpl.
    rewrite Hx. simpl. by rewrite IH.
Qed.

(** [\s*\(([^)]+)] on an opening parenthesis, a parameter list without
    closing parenthesis, and a closing parenthesis. *)
Lemma match_arg_list_parens args rest :
  args <> "" -> has_char ")" args = false ->
  match_arg_list ("(" +:+ args +:+ ")" +:+ rest) = Some args.
Proof.
  intros Hne Hp. unfold match_arg_list. rewrite app_String, app_empty_l. simpl.
  change (")" +:+ rest) with (String ")" rest).
  rewrite take_until_app by done.
  destruct (String.eqb args "") eqn:E; [|done]. by apply String.eqb_eq in E.
Qed.

Lemma match_arg_list_empty rest : match_arg_list ("(" +:+ "" +:+ ")" +:+ rest) = None.
Proof. reflexivity. Qed.

Lemma match_arg_list_not_paren c s :
  is_space c = false -> Ascii.eqb c "(" = false -> match_arg_list (String c s) = None.
Proof. intros H1 H2. unfold match_arg_list. simpl. by rewrite H1, H2. Qed.

Lemma match_function_name_none c s :
  is_space c = false -> match_function_name (String c s) = None.
Proof.
  intros H. unfold match_function_name. simpl. rewrite H. by rewrite Nat.ltb_irrefl.
Qed.

Lemma match_function_name_named name c s :
  identifier name = true -> is_word c = false ->
  match_function_name (" " +:+ name +:+ String c s) = Some (String c s).
Proof.
  intros Hn Hc. destruct (identifier_cons name Hn) as (a & name' & -> & Ha & Hw).
  unfold match_function_name.
  change (" " +:+ String a name' +:+ String c s)
    with (String " " (String a (name' +:+ String c s))).
  assert (E1 : skip_while is_space (String " " (String a (name' +:+ String c s)))
               = String a (name' +:+ String c s)).
  { simpl. by rewrite (word_not_space a Ha). }
  assert (E2 : skip_while is_word (String a (name' +:+ String c s)) = String c s).
  { simpl. rewrite Ha. by apply skip_word_app. }
  rewrite !E1, !E2. simpl String.length. rewrite length_append. simpl String.length.
  replace (S (_ + S _) <? S (S (_ + S _))) with true by (symmetry; apply Nat.ltb_lt; lia).
  replace (S (String.length s) <? S (String.length name' + S (String.length s))) with true
    by (symmetry; apply Nat.ltb_lt; lia).
  done.
Qed.

(** *** The source of a function with parameters *)

Lemma exec_function_text h params rest :
  (match h with Named name => identifier name = true | _ => True end) ->
  String.concat ", " params <> "" ->
  has_char ")" (String.concat ", " params) = false ->
  exec_function_args (function_text h params rest) = Some (String.concat ", " params).
Proof.
  intros Hh Hne Hp. unfold function_text, exec_function_args.
  set (args := String.concat ", " params) in *.
  destruct h as [name| |]; simpl head_text.
  - rewrite !append_assoc3.
    change ("function " +:+ name +:+ "(" +:+ args +:+ ")" +:+ rest)
      with ("function" +:+ " " +:+ name +:+ "(" +:+ args +:+ ")" +:+ rest).
    rewrite strip_prefix_app.
    change ("(" +:+ args +:+ ")" +:+ rest) with (String "(" (args +:+ ")" +:+ rest)).
    rewrite match_function_name_named by done.
    change (String "(" (args +:+ ")" +:+ rest)) with ("(" +:+ args +:+ ")" +:+ rest).
    by rewrite match_arg_list_parens.
  - rewrite strip_prefix_app.
    change ("(" +:+ args +:+ ")" +:+ rest) with (String "(" (args +:+ ")" +:+ rest)).
    rewrite match_function_name_none by done.
    change (String "(" (args +:+ ")" +:+ rest)) with ("(" +:+ args +:+ ")" +:+ rest).
    by rewrite match_arg_list_parens.
  - rewrite app_empty_l.
    assert (E : strip_prefix "function" ("(" +:+ args +:+ ")" +:+ rest) = None) by reflexivity.
    rewrite E. by apply match_arg_list_parens.
Qed.


(** *** [split] and [trim] on what was captured *)

Lemma split_no_sep c s : has_char c s = false -> split c s = [s].
Proof.
  induction s as [|a s IH]; intros H; [done|]. simpl in *.
  apply orb_false_iff in H as [Ha Hs]. rewrite Ha. by rewrite IH.
Qed.

Lemma split_app c a s :
  has_char c a = false -> split c (a +:+ String c s) = a :: split c s.
Proof.
  induction a as [|x a IH]; intros H.
  - change (split c (String c s) = "" :: split c s). simpl. by rewrite Ascii.eqb_refl.
  - simpl in H. apply orb_false_iff in H as [Hx Ha]. rewrite app_String. simpl.
    rewrite Hx. by rewrite IH.
Qed.

Lemma rev_app_rev_app : forall s a b,
  String.rev_app (String.rev_app s a) b = String.rev_app a (s +:+ b).
Proof.
  induction s as [|c s IH]; intros a b; [done|]. simpl. rewrite IH. done.
Qed.

Lemma rev_involutive s : String.rev (String.rev s) = s.
Proof. unfold String.rev. rewrite rev_app_rev_app. simpl. apply app_empty_r. Qed.

Lemma rev_app_word s : forall acc,
  word_only s = true -> word_only acc = true -> word_only (String.rev_app s acc) = true.
Proof.
  induction s as [|c s IH]; intros acc Hs Ha; [done|]. simpl in *.
  apply andb_true_iff in Hs as [Hc Hs]. apply IH; [done|]. simpl. by rewrite Hc.
Qed.

Lemma trim_word s : word_only s = true -> trim s = s.
Proof.
  intros H. unfold trim. rewrite (skip_space_word s H).
  rewrite skip_space_word; [apply rev_involutive|]. by apply rev_app_word.
Qed.

Lemma trim_space_word s : word_only s = true -> trim (String " " s) = s.
Proof. intros H. unfold trim. simpl skip_while at 2. by apply trim_word. Qed.

Lemma split_concat : forall a (l : list string),
  Forall (fun p => has_char "," p = false) (a :: l) ->
  split "," (String.concat ", " (a :: l)) = a :: map (String " ") l.
Proof.
  intros a l. revert a. induction l as [|b l IH]; intros a H.
  - apply Forall_cons in H as [Ha _]. by apply split_no_sep.
  - apply Forall_cons in H as [Ha H]. rewrite concat_cons.
    change (a +:+ ", " +:+ String.concat ", " (b :: l))
      with (a +:+ String "," (String " " (String.concat ", " (b :: l)))).
    rewrite split_app by done. f_equal.
    assert (E : forall x, split "," (String " " x)
                = match split "," x with
                  | part :: parts => String " " part :: parts
                  | [] => [String " " ""]
                  end) by reflexivity.
    rewrite E, IH by done. done.
Qed.

Lemma trim_split_concat (params : list string) :
  params <> [] ->
  Forall (fun p => identifier p = true) params ->
  map trim (split "," (String.concat ", " params)) = params.
Proof.
  intros Hne H. destruct params as [|a l]; [done|].
  assert (Hw : Forall (fun p => word_only p = true) (a :: l)).
  { eapply Forall_impl; [exact H|]. intros p. apply identifier_word. }
  rewrite split_concat.
  2:{ eapply Forall_impl; [exact Hw|]. intros p. by apply word_has_no. }
  apply Forall_cons in Hw as [Ha Hl]. simpl. rewrite trim_word by done. f_equal.
  rewrite map_map. clear Hne H Ha.
  induction Hl as [|p l Hp Hl IH]; [done|]. simpl.
  rewrite trim_space_word by done. by rewrite IH.
Qed.

Lemma concat_not_empty (params : list string) :
  params <> [] -> Forall (fun p => identifier p = true) params ->
  String.concat ", " params <> "".
Proof.
  intros Hne H. destruct params as [|a l]; [done|]. apply Forall_cons in H as [Ha _].
  destruct (identifier_cons a Ha) as (c & a' & -> & _). by destruct l.
Qed.


(** *** Functions without a parenthesised parameter *)

Lemma strip_prefix_of_word p : forall w c s r,
  word_only p = true -> is_word c = false ->
  strip_prefix p (w +:+ String c s) = Some r ->
  exists w', w = p +:+ w' /\ r = w' +:+ String c s.
Proof.
  induction p as [|a p IH]; intros w c s r Hp Hc H.
  - simpl in H. injection H as <-. by exists w.
  - simpl in Hp. apply andb_true_iff in Hp as [Ha Hp]. destruct w as [|b w].
    + change (strip_prefix (String a p) (String c s) = Some r) in H. simpl in H.
      destruct (Ascii.eqb a c) eqn:E; [|done]. apply Ascii.eqb_eq in E. congruence.
    + rewrite app_String in H. simpl in H.
      destruct (Ascii.eqb a b) eqn:E; [|done]. apply Ascii.eqb_eq in E. subst b.
      destruct (IH w c s r Hp Hc H) as (w' & -> & ->). by exists w'.
Qed.

Lemma word_only_app p w : word_only (p +:+ w) = true -> word_only w = true.
Proof.
  induction p as [|a p IH]; [done|]. rewrite app_String. simpl. intros H.
  apply andb_true_iff in H as [_ H]. by apply IH.
Qed.

(** A word, then a character that is neither a word character, nor white
    space followed by a word, nor an opening parenthesis. *)
Lemma exec_word_then w c s :
  word_only w = true -> is_word c = false -> Ascii.eqb c "(" = false ->
  match_arg_list (String c s) = None ->
  match_function_name (String c s) = None ->
  exec_function_args (w +:+ String c s) = None.
Proof.
  intros Hw Hc Hp Ha Hf.
  assert (Hany : forall v, word_only v = true -> match_arg_list (v +:+ String c s) = None).
  { intros [|a v] Hv; [exact Ha|]. simpl in Hv. apply andb_true_iff in Hv as [Hv _].
    rewrite app_String. apply match_arg_list_not_paren;
      [by apply word_not_space|by apply word_not_paren]. }
  assert (Hname : forall v, word_only v = true ->
            match_function_name (v +:+ String c s) = None).
  { intros [|a v] Hv; [exact Hf|]. simpl in Hv. apply andb_true_iff in Hv as [Hv _].
    rewrite app_String. apply match_function_name_none. by apply word_not_space. }
  unfold exec_function_args. rewrite (Hany w Hw).
  destruct (strip_prefix "function" (w +:+ String c s)) as [r|] eqn:E; [|done].
  apply strip_prefix_of_word in E as (w' & -> & ->); [|done|done].
  apply word_only_app in Hw. by rewrite (Hany w' Hw), (Hname w' Hw).
Qed.

Lemma match_function_name_no_word c s :
  is_space c = false -> is_word c = false ->
  match_function_name (String " " (String c s)) = None.
Proof.
  intros H1 H2. unfold match_function_name.
  assert (E1 : skip_while is_space (String " " (String c s)) = String c s).
  { simpl. by rewrite H1. }
  assert (E2 : skip_while is_word (String c s) = String c s).
  { simpl. by rewrite H2. }
  rewrite !E1, !E2. by rewrite Nat.ltb_irrefl, andb_false_r.
Qed.

Lemma space_only_has_no c s : is_space c = false -> space_only s = true -> has_char c s = false.
Proof.
  intros Hc. induction s as [|a s IH]; [done|]. simpl. intros H.
  apply andb_true_iff in H as [Ha Hs]. rewrite IH by done.
  destruct (Ascii.eqb a c) eqn:E; [|done]. apply Ascii.eqb_eq in E. congruence.
Qed.

Lemma skip_space_only s : space_only s = true -> skip_while is_space s = "".
Proof.
  induction s as [|a s IH]; [done|]. simpl. intros H.
  apply andb_true_iff in H as [Ha Hs]. rewrite Ha. by apply IH.
Qed.

Lemma trim_space_only s : space_only s = true -> trim s = "".
Proof. intros H. unfold trim. rewrite (skip_space_only s) by done. reflexivity. Qed.



(** *** What [readArgNames] can return *)

Lemma take_until_has_no c s :
  has_char c (take_while (fun x => negb (Ascii.eqb x c)) s) = false.
Proof.
  induction s as [|a s IH]; [done|]. simpl.
  destruct (Ascii.eqb a c) eqn:E; simpl; [done|]. by rewrite E.
Qed.

Lemma match_arg_list_some s r :
  match_arg_list s = Some r -> r <> "" /\ has_char ")" r = false.
Proof.
  unfold match_arg_list. destruct (skip_while is_space s) as [|c rest]; [done|].
  destruct (Ascii.eqb c "("); [|done].
  destruct (String.eqb _ "") eqn:E; [done|]. intros H. injection H as <-.
  split; [by apply String.eqb_neq|apply take_until_has_no].
Qed.

Lemma exec_function_args_some src r :
  exec_function_args src = Some r -> r <> "" /\ has_char ")" r = false.
Proof.
  unfold exec_function_args.
  destruct (strip_prefix "function" src) as [rest|]; [|apply match_arg_list_some].
  destruct (match_function_name rest) as [rest'|].
  - destruct (match_arg_list rest') as [r'|] eqn:E1.
    + intros H. injection H as <-. by eapply match_arg_list_some.
    + destruct (match_arg_list rest) as [r'|] eqn:E2.
      * intros H. injection H as <-. by eapply match_arg_list_some.
      * apply match_arg_list_some.
  - destruct (match_arg_list rest) as [r'|] eqn:E2.
    + intros H. injection H as <-. by eapply match_arg_list_some.
    + apply match_arg_list_some.
Qed.

Lemma split_parts c d s :
  split c s <> []
  /\ Forall (fun p => has_char c p = false) (split c s)
  /\ (has_char d s = false -> Forall (fun p => has_char d p = false) (split c s)).
Proof.
  induction s as [|a s (IH1 & IH2 & IH3)]; simpl.
  - split; [done|]. split; [by constructor|]. intros _. by constructor.
  - destruct (Ascii.eqb a c) eqn:E.
    + split; [done|]. split; [by constructor|].
      intros H. apply orb_false_iff in H as [_ H]. constructor; [done|by apply IH3].
    + destruct (split c s) as [|part parts]; [done|].
      split; [done|]. apply Forall_cons in IH2 as [Hp Hps]. split.
      * constructor; [|done]. simpl. by rewrite E.
      * intros H. apply orb_false_iff in H as [Ha H].
        specialize (IH3 H). apply Forall_cons in IH3 as [Hq Hqs].
        constructor; [|done]. simpl. by rewrite Ha.
Qed.

Lemma skip_space_first s : first_is_space (skip_while is_space s) = false.
Proof.
  induction s as [|a s IH]; [done|]. simpl. destruct (is_space a) eqn:E; [done|].
  simpl. done.
Qed.

Lemma skip_space_has_no d s : has_char d s = false -> has_char d (skip_while is_space s) = false.
Proof.
  induction s as [|a s IH]; [done|]. simpl. intros H. apply orb_false_iff in H as [Ha H].
  destruct (is_space a); [by apply IH|]. simpl. by rewrite Ha.
Qed.

(** What [skip_while] skipped. *)
Lemma skip_space_split s :
  exists w, s = w +:+ skip_while is_space s.
Proof.
  induction s as [|a s [w IH]]; [by exists ""|]. simpl.
  destruct (is_space a); [|by exists ""].
  exists (String a w). rewrite app_String. by rewrite <- IH.
Qed.

Lemma rev_app_acc : forall s acc, String.rev_app s acc = String.rev s +:+ acc.
Proof.
  unfold String.rev. induction s as [|c s IH]; intros acc; [done|]. simpl.
  rewrite (IH (String c acc)), (IH (String c "")). by rewrite append_assoc3.
Qed.

Lemma rev_append a b : String.rev (a +:+ b) = String.rev b +:+ String.rev a.
Proof.
  induction a as [|c a IH].
  - rewrite app_empty_l. by rewrite app_empty_r.
  - rewrite app_String. unfold String.rev in *. simpl.
    rewrite (rev_app_acc (a +:+ b)), (rev_app_acc a). unfold String.rev.
    rewrite IH. by rewrite append_assoc3.
Qed.

Lemma rev_has_char d s : has_char d (String.rev s) = has_char d s.
Proof.
  induction s as [|c s IH]; [done|].
  change (String c s) with (String c "" +:+ s) at 1. rewrite rev_append.
  rewrite has_char_app, IH. simpl. rewrite orb_false_r. apply orb_comm.
Qed.

Lemma first_of_app a b :
  first_is_space (a +:+ b) = false -> first_is_space a = false.
Proof. by destruct a. Qed.

Lemma trim_trimmed s :
  first_is_space (trim s) = false /\ last_is_space (trim s) = false.
Proof.
  unfold trim, last_is_space. rewrite rev_involutive. split; [|apply skip_space_first].
  set (t := skip_while is_space s).
  destruct (skip_space_split (String.rev t)) as [w Hw].
  apply (f_equal String.rev) in Hw. rewrite rev_involutive, rev_append in Hw.
  apply (first_of_app _ (String.rev w)). rewrite <- Hw. apply skip_space_first.
Qed.

Lemma trim_has_no d s : has_char d s = false -> has_char d (trim s) = false.
Proof.
  intros H. unfold trim. rewrite rev_has_char. apply skip_space_has_no.
  rewrite rev_has_char. by apply skip_space_has_no.
Qed.

(** X11.  Whatever it is given, [readArgNames] either throws the
    [ReferenceError] of [fns], or returns a list of at least one string,
    each without white space at its ends and without comma or closing
    parenthesis.  It never throws the [Error] of its last statement. *)
Theorem readArgNames_returns_trimmed_names fn name :
  readArgNames fn name = Throw (ReferenceError "fns")
  \/ exists names,
       readArgNames fn name = Normal names
       /\ (0 < length names)%nat
       /\ Forall (fun a => trimmed_part a = true) names.
Proof.
  unfold readArgNames. destruct (exec_function_args (toString fn)) as [r|] eqn:E; [|by left].
  right. eexists. split; [done|].
  apply exec_function_args_some in E as [_ Hp].
  destruct (split_parts "," ")" r) as (H1 & H2 & H3). specialize (H3 Hp).
  split.
  - rewrite length_map. destruct (split "," r); [done|simpl; lia].
  - apply Forall_map. apply Forall_forall. intros part Hin.
    rewrite Forall_forall in H2, H3. specialize (H2 part Hin). specialize (H3 part Hin).
    unfold trimmed_part. destruct (trim_trimmed part) as [T1 T2].
    by rewrite T1, T2, (trim_has_no _ _ H2), (trim_has_no _ _ H3).
Qed.


(** *** [load] on a name that reads as a parameter list *)

Lemma resolve_arguments name app : forall names,
  map_M (fun argName =>
           arg ← get_service argName;
           if is_undefined arg then
             throw (Error ("Unresolved dependency: '" +:+ argName +:+ "' for '"
                           +:+ name +:+ "'"))
           else mret arg) names app
  = match first_unbound app names with
    | Some dep =>
        (Throw (Error ("Unresolved dependency: '" +:+ dep +:+ "' for '" +:+ name +:+ "'")),
         app)
    | None => (Normal (map (services_get app) names), app)
    end.
Proof.
  induction names as [|n names IH]; [done|].
  cbn [map_M]. unfold first_unbound in *. cbn [find map].
  unfold mbind, M_bind, bindM, get_service in *.
  destruct (is_undefined (services_get app n)) eqn:E; [done|].
  unfold mret at 1, M_ret at 1, ret at 1. cbv beta iota.
  rewrite IH. by destruct (find _ names).
Qed.

(** X12.  [load] hands the service's name, not the factory, to
    [readArgNames].  For a name that reads as a parameter list of
    identifiers: each parameter is looked up in [app.services], in order;
    if one of them is not bound, [load] fails with 'Unresolved dependency:
    '<parameter>' for '<name>'' for the first such and the factory is not
    called; otherwise the factory is applied to the services found. *)
Theorem load_resolves_from_the_name h params rest def app :
  (match h with Named fname => identifier fname = true | _ => True end) ->
  params <> [] ->
  Forall (fun p => identifier p = true) params ->
  load_factory (function_text h params rest) def app
  = match first_unbound app params with
    | Some dep =>
        (Throw (Error ("Unresolved dependency: '" +:+ dep +:+ "' for '"
                       +:+ function_text h params rest +:+ "'")), app)
    | None => apply def (map (services_get app) params) app
    end.
Proof.
  intros Hh Hne Hp. unfold load_factory, readArgNames. simpl toString.
  rewrite exec_function_text; [|done|by apply concat_not_empty|].
  2:{ apply concat_has_no; [done|]. eapply Forall_impl; [exact Hp|].
      intros p Hi. apply word_has_no; [done|by apply identifier_word]. }
  rewrite trim_split_concat by done.
  unfold mbind at 1, M_bind at 1, bindM at 1, lift. cbv beta iota.
  unfold mbind at 1, M_bind at 1, bindM at 1.
  rewrite resolve_arguments. by destruct (first_unbound app params).
Qed.

(** *** Instances *)




Lemma load_resolves_from_the_name_witness :
  load_factory (function_text Arrow ["settings"] "") db_factory new_App
  = (Throw (Error "Unresolved dependency: 'settings' for '(settings)'"), new_App).
Proof.
  apply (load_resolves_from_the_name Arrow ["settings"] "" db_factory new_App).
  - exact I.
  - discriminate.
  - repeat constructor.
Defined.

End ArgNamesLaws.

(** ** The pending calls of a client *)

Module IpcClientLaws.
Import Wire IpcClient IpcClientFacts ListFacts.

(** *** What a handler leaves alone *)

Lemma settle_sent p s c : sent (settle p s c) = sent c.
Proof. unfold settle. by destruct (promises c !! p) as [[| |]|]. Qed.

Lemma settle_midx p s c : midx (settle p s c) = midx c.
Proof. unfold settle. by destruct (promises c !! p) as [[| |]|]. Qed.

Lemma handle_sent (h : Handler) data c :
  let r := match h with HResolve => resolve data c | HReject => reject data c end in
  sent (snd r) = sent c /\ midx (snd r) = midx c.
Proof.
  destruct h; simpl; unfold resolve, reject, clear;
    destruct (pendings c !! id data) as [p|]; simpl;
    try (destruct (inherited (id data)); done);
    by rewrite settle_sent, settle_midx.
Qed.

Lemma dispatch_sent data : forall hs c,
  sent (snd (dispatch hs data c)) = sent c /\ midx (snd (dispatch hs data c)) = midx c.
Proof.
  induction hs as [|h hs IH]; intros c; [done|]. simpl.
  pose proof (handle_sent h data c) as [H1 H2]. simpl in *.
  destruct (match h with HResolve => resolve data c | HReject => reject data c end)
    as [[[]| |] c1]; simpl in *; [|done|done].
  destruct (IH c1) as [G1 G2]. split; congruence.
Qed.

Lemma fire_sent t c : sent (fire t c) = sent c /\ midx (fire t c) = midx c.
Proof.
  unfold fire. destruct (timers c !! t) as [cb|]; [|done].
  by rewrite settle_sent, settle_midx.
Qed.

(** *** Call identifiers *)

(** Every message sent so far carries an identifier made from a counter
    value below [midx], and no two carry the same. *)
Definition numbered (c : Client) : Prop :=
  NoDup (map sent_id (sent c))
  /\ forall s, s ∈ sent c -> exists name k, sent_id s = call_id name k /\ k < midx c.

Lemma numbered_step c i : numbered c -> numbered (step c i).
Proof.
  intros [Hnd Hk]. destruct i as [name args|topic data|t]; simpl.
  - destruct (existsb _ _); [|done]. unfold numbered, invoke. simpl. split.
    + rewrite map_app. apply NoDup_app. split; [done|]. split; [|apply NoDup_singleton].
      intros x Hx Hin. simpl in Hin. apply list_elem_of_singleton in Hin. subst x.
      apply list_elem_of_fmap in Hx as (s & Hs & Hin).
      destruct (Hk s Hin) as (n' & k & Hid & Hlt).
      rewrite Hid in Hs. apply call_id_inj in Hs. lia.
    + intros s Hs. apply elem_of_app in Hs as [Hs|Hs].
      * destruct (Hk s Hs) as (n' & k & Hid & Hlt). exists n', k. split; [done|lia].
      * apply list_elem_of_singleton in Hs. subst s. simpl. exists name, (midx c).
        split; [done|lia].
  - destruct (dispatch_sent data (handlers_on topic (messages c)) c) as [H1 H2].
    unfold numbered. by rewrite H1, H2.
  - destruct (fire_sent t c) as [H1 H2]. unfold numbered. by rewrite H1, H2.
Qed.

Lemma numbered_run : forall history c, numbered c -> numbered (run history c).
Proof.
  induction history as [|i history IH]; intros c H; [done|]. simpl.
  apply IH. by apply numbered_step.
Qed.

(** X17.  In every state a client reaches, the messages it has sent to
    the server carry pairwise distinct call identifiers. *)
Theorem call_ids_are_distinct msgs history :
  NoDup (map sent_id (sent (run history (connect msgs)))).
Proof.
  apply (numbered_run history (connect msgs)). split; [constructor|].
  intros s Hs. by apply elem_of_nil in Hs.
Qed.


(** *** The entry of a call in [pendings] *)

Lemma run_tracked msgs name k pid tid : forall later c,
  tracked msgs name k pid tid c -> tracked msgs name k pid tid (run later c).
Proof.
  induction later as [|i later IH]; intros c Ht; [done|]. simpl.
  apply IH. by apply step_tracked.
Qed.

(** X18.  For every call, for as long as its promise is pending: its
    entry is in [pendings] and its timer is armed (so the promise cannot
    stay pending past the timeout). *)
Theorem pending_call_keeps_its_timer msgs history name args later :
  let c1 := run history (connect msgs) in
  let p := fst (invoke name args c1) in
  let c2 := snd (invoke name args c1) in
  let call := call_id name (midx c1) in
  promise_state (run later c2) p = Pending ->
  pendings (run later c2) !! call = Some {| promise := p; timerID := next_timer c1 |}
  /\ timers (run later c2) !! next_timer c1
     = Some {| timer_call := call; timer_promise := p |}.
Proof.
  intros c1 p c2 call Hs.
  destruct (wf_run msgs history (connect msgs) (wf_connect msgs) eq_refl) as [Hw Hm].
  fold c1 in Hw, Hm.
  destruct (invoke_tracked name args c1 Hw) as [Ht _].
  apply (run_tracked _ _ _ _ _ later) in Ht.
  destruct Ht as (_ & _ & _ & _ & _ & _ & Hpend). by apply Hpend.
Qed.

(** A response or an error for an identifier that is not in [pendings]. *)
Lemma dispatch_absent data c : forall hs,
  pendings c !! id data = None -> inherited (id data) = false ->
  dispatch hs data c = (Normal tt, c).
Proof.
  intros hs Hp Hi. induction hs as [|h hs IH]; [done|]. simpl.
  assert (E : match h with HResolve => resolve data c | HReject => reject data c end
              = (Normal tt, c)).
  { destruct h; unfold resolve, reject, clear; by rewrite Hp, Hi. }
  by rewrite E.
Qed.

Lemma dispatch_member data c h hs :
  pendings c !! id data = None -> inherited (id data) = true ->
  dispatch (h :: hs) data c = (Throw NativeTypeError, c).
Proof.
  intros Hp Hi. simpl.
  assert (E : match h with HResolve => resolve data c | HReject => reject data c end
              = (Throw NativeTypeError, c)).
  { destruct h; unfold resolve, reject, clear; by rewrite Hp, Hi. }
  by rewrite E.
Qed.

(** X19.  A response or an error whose identifier has no entry in
    [pendings] leaves the client as it is.  Its handler returns, unless the
    identifier names a member of [Object.prototype] (['constructor'], ...):
    then the handler throws a [TypeError]. *)
Theorem unknown_id_is_ignored c topic data :
  pendings c !! id data = None ->
  step c (Receive topic data) = c
  /\ (inherited (id data) = false ->
      fst (dispatch (handlers_on topic (messages c)) data c) = Normal tt)
  /\ (inherited (id data) = true ->
      (0 < length (handlers_on topic (messages c)))%nat ->
      fst (dispatch (handlers_on topic (messages c)) data c) = Throw NativeTypeError).
Proof.
  intros Hp. simpl. destruct (inherited (id data)) eqn:Hi.
  - destruct (handlers_on topic (messages c)) as [|h hs].
    + split; [done|]. split; [done|]. simpl. lia.
    + rewrite dispatch_member by done. done.
  - rewrite dispatch_absent by done. done.
Qed.

(** The first response or error for a call whose promise is pending. *)
Lemma first_reply_clears msgs name k pid tid (h : Handler) hs data c :
  tracked msgs name k pid tid c ->
  promise_state c pid = Pending ->
  id data = call_id name k ->
  let c' := snd (dispatch (h :: hs) data c) in
  pendings c' !! call_id name k = None
  /\ timers c' !! tid = None
  /\ promise_state c' pid
     = match h with
       | HResolve => Fulfilled (message data)
       | HReject => Rejected (ErrorText (message data))
       end.
Proof.
  intros Ht Hs Hid. pose proof Ht as (Hm & Hp & Htm & Hk & Hpe & Hti & Hpend).
  destruct (Hpend Hs) as [H1 H2]. cbn [dispatch].
  set (s := match h with
            | HResolve => Fulfilled (message data)
            | HReject => Rejected (ErrorText (message data))
            end).
  set (c0 := {| messages := messages c; midx := midx c;
                pendings := delete (call_id name k) (pendings c);
                timers := delete tid (timers c); next_timer := next_timer c;
                promises := promises c; sent := sent c |}).
  assert (E : match h with HResolve => resolve data c | HReject => reject data c end
              = (Normal tt, settle pid s c0)).
  { destruct h; unfold resolve, reject, clear; rewrite Hid, H1; reflexivity. }
  rewrite E.
  pose proof (settle_fields pid s c0) as (F1 & F2 & F3 & F4 & F5 & F6).
  rewrite dispatch_absent.
  - cbn [snd]. rewrite F3, F4. unfold c0. simpl.
    rewrite !lookup_delete_eq. split; [done|]. split; [done|].
    apply settle_pending; [done|]. done.
  - rewrite F3, Hid. unfold c0. simpl. by rewrite lookup_delete_eq.
  - rewrite Hid. apply call_id_not_inherited.
Qed.

(** X20.  For every call whose promise is still pending: the response
    to it (on [message.<name>]) fulfils the promise with the reply, the
    error to it (on [error.<name>]) rejects it with the reply, and either
    takes the call's entry out of [pendings] and disarms its timer. *)
Theorem response_clears_the_call msgs history name args between reply :
  let c1 := run history (connect msgs) in
  let p := fst (invoke name args c1) in
  let c2 := snd (invoke name args c1) in
  let call := call_id name (midx c1) in
  In name msgs ->
  promise_state (run between c2) p = Pending ->
  (let c3 := step (run between c2)
               (Receive ("message." +:+ name) {| id := call; message := reply |}) in
   pendings c3 !! call = None /\ timers c3 !! next_timer c1 = None
   /\ promise_state c3 p = Fulfilled reply)
  /\ (let c3 := step (run between c2)
                  (Receive ("error." +:+ name) {| id := call; message := reply |}) in
      pendings c3 !! call = None /\ timers c3 !! next_timer c1 = None
      /\ promise_state c3 p = Rejected (ErrorText reply)).
Proof.
  intros c1 p c2 call Hin Hs.
  destruct (wf_run msgs history (connect msgs) (wf_connect msgs) eq_refl) as [Hw Hm].
  fold c1 in Hw, Hm.
  destruct (invoke_tracked name args c1 Hw) as [Ht _]. rewrite Hm in Ht.
  apply (run_tracked _ _ _ _ _ between) in Ht.
  assert (Hmsgs : messages (run between c2) = msgs) by apply Ht.
  split; cbv zeta; unfold step; rewrite Hmsgs.
  - destruct (handlers_on_message name msgs Hin) as [hs ->].
    by apply (first_reply_clears msgs name (midx c1) (length (promises c1)) (next_timer c1)).
  - destruct (handlers_on_error name msgs Hin) as [hs ->].
    by apply (first_reply_clears msgs name (midx c1) (length (promises c1)) (next_timer c1)).
Qed.

(** *** The entry of a call whose timer ran out *)

Section Expired.

Variables (msgs : list string) (name : string) (k pid tid : nat).

Let cid : string := call_id name k.
Let entry : PendingCall := {| promise := pid; timerID := tid |}.

Lemma handle_keeps_entry (h : Handler) data c :
  id data <> cid -> pendings c !! cid = Some entry ->
  pendings (snd (match h with HResolve => resolve data c | HReject => reject data c end))
    !! cid = Some entry.
Proof.
  intros Hid He.
  destruct h; unfold resolve, reject, clear;
    destruct (pendings c !! id data) as [p'|] eqn:E; simpl;
    try (destruct (inherited (id data)); done);
    match goal with
    | |- pendings (settle ?p ?s ?c0) !! _ = _ =>
        destruct (settle_fields p s c0) as (_ & _ & -> & _)
    end; simpl; by rewrite lookup_delete_ne.
Qed.

Lemma dispatch_keeps_entry data : forall hs c,
  id data <> cid -> pendings c !! cid = Some entry ->
  pendings (snd (dispatch hs data c)) !! cid = Some entry.
Proof.
  induction hs as [|h hs IH]; intros c Hid He; [done|]. simpl.
  pose proof (handle_keeps_entry h data c Hid He) as H1.
  destruct (match h with HResolve => resolve data c | HReject => reject data c end)
    as [[[]| |] c1]; simpl in *; [|done|done].
  by apply IH.
Qed.

Lemma step_keeps_entry c i :
  tracked msgs name k pid tid c ->
  Terms.replies_to cid i = false ->
  pendings c !! cid = Some entry ->
  pendings (step c i) !! cid = Some entry.
Proof.
  intros Ht Hi He. pose proof Ht as (Hm & Hp & Htm & Hk & Hpe & Hti & Hpend).
  destruct i as [n args|topic data|t]; simpl.
  - destruct (existsb _ _); [|done]. simpl. rewrite lookup_insert_ne; [done|].
    intros E. apply call_id_inj in E. lia.
  - simpl in Hi. apply String.eqb_neq in Hi. by apply dispatch_keeps_entry.
  - unfold fire. destruct (timers c !! t) as [cb|]; [|done].
    match goal with
    | |- pendings (settle ?p ?s ?c0) !! _ = _ =>
        destruct (settle_fields p s c0) as (_ & _ & -> & _)
    end. done.
Qed.

Lemma run_keeps_entry : forall later c,
  tracked msgs name k pid tid c ->
  forallb (fun i => negb (Terms.replies_to cid i)) later = true ->
  pendings c !! cid = Some entry ->
  pendings (run later c) !! cid = Some entry.
Proof.
  induction later as [|i later IH]; intros c Ht Hl He; [done|]. simpl in *.
  apply andb_true_iff in Hl as [Hi Hl]. apply negb_true_iff in Hi.
  apply IH; [by apply step_tracked|done|by apply step_keeps_entry].
Qed.

End Expired.

(** X21.  For every call whose promise is still pending when its timer
    runs out: the promise is rejected with the timeout error and the timer
    is gone, but the call's entry stays in [pendings], through all inputs
    that follow, until a response or an error with the call's identifier
    arrives. *)
Theorem expired_call_stays_in_pendings msgs history name args between later :
  let c1 := run history (connect msgs) in
  let p := fst (invoke name args c1) in
  let c2 := snd (invoke name args c1) in
  let call := call_id name (midx c1) in
  let c3 := step (run between c2) (TimerFires (next_timer c1)) in
  promise_state (run between c2) p = Pending ->
  forallb (fun i => negb (Terms.replies_to call i)) later = true ->
  promise_state c3 p = Rejected (TimeoutError call "IPC message dispatch timeout")
  /\ timers c3 !! next_timer c1 = None
  /\ pendings (run later c3) !! call = Some {| promise := p; timerID := next_timer c1 |}.
Proof.
  intros c1. cbv zeta. intros Hs Hl.
  destruct (wf_run msgs history (connect msgs) (wf_connect msgs) eq_refl) as [Hw Hm].
  fold c1 in Hw, Hm.
  destruct (invoke_tracked name args c1 Hw) as [Ht _]. rewrite Hm in Ht.
  apply (run_tracked _ _ _ _ _ between) in Ht.
  set (c := run between (snd (invoke name args c1))) in *.
  pose proof Ht as (_ & Hp & _ & _ & _ & _ & Hpend). destruct (Hpend Hs) as [H1 H2].
  pose proof (step_tracked _ _ _ _ _ _ (TimerFires (next_timer c1)) Ht) as Ht3.
  set (c0 := {| messages := messages c; midx := midx c; pendings := pendings c;
                timers := delete (next_timer c1) (timers c);
                next_timer := next_timer c; promises := promises c; sent := sent c |}).
  assert (E3 : step c (TimerFires (next_timer c1))
               = settle (length (promises c1))
                   (Rejected (TimeoutError (call_id name (midx c1))
                                "IPC message dispatch timeout")) c0).
  { cbn [step]. unfold fire. by rewrite H2. }
  rewrite E3 in *.
  pose proof (settle_fields (length (promises c1))
                (Rejected (TimeoutError (call_id name (midx c1))
                             "IPC message dispatch timeout")) c0) as (_ & _ & F3 & F4 & _).
  split; [|split].
  - by apply settle_pending.
  - rewrite F4. unfold c0. simpl. by rewrite lookup_delete_eq.
  - apply (run_keeps_entry msgs name (midx c1) (length (promises c1)) (next_timer c1));
      [done|done|]. by rewrite F3.
Qed.

(** *** A call answered by a server *)

(** X22.  A call through a client, answered by the server's listener
    for the message: if the handler returns a result, the client's promise
    is fulfilled with that result; if it fails with a value the [catch]
    block can read, the promise is rejected with the error message; in both
    cases the call's entry is taken out of [pendings].  If the [catch] block
    itself throws, nothing is sent and the promise stays pending.  (The
    request carries the call's identifier; replies arrive as emitted.) *)
Theorem remote_call_round_trip msgs history name args handler request socket :
  let c1 := run history (connect msgs) in
  let p := fst (invoke name args c1) in
  let c2 := snd (invoke name args c1) in
  let call := call_id name (midx c1) in
  let served := IpcServer.on_message name handler request socket in
  let c3 := Terms.deliver (snd served) c2 in
  In name msgs ->
  IpcServer.req_id request = call ->
  promise_state c3 p
  = match handler (Terms.handler_args request) with
    | IpcServer.Returns result => Fulfilled result
    | IpcServer.Fails err =>
        match IpcServer.error_message err with
        | Normal text => Rejected (ErrorText text)
        | _ => Pending
        end
    end
  /\ (fst served = Normal tt -> pendings c3 !! call = None).
Proof.
  intros c1 p c2 call served c3 Hin Hid.
  destruct (wf_run msgs history (connect msgs) (wf_connect msgs) eq_refl) as [Hw Hm].
  fold c1 in Hw, Hm.
  destruct (invoke_tracked name args c1 Hw) as [Ht Hs]. rewrite Hm in Ht.
  assert (Hmsgs : messages c2 = msgs) by apply Ht.
  unfold c3, served, Terms.deliver, IpcServer.on_message, Terms.handler_args.
  destruct (handler _) as [result|err].
  - cbn [snd fst map run fold_left IpcServer.topic IpcServer.data]. unfold step.
    rewrite Hmsgs, Hid.
    destruct (handlers_on_message name msgs Hin) as [hs ->].
    destruct (first_reply_clears msgs name (midx c1) (length (promises c1)) (next_timer c1)
                HResolve hs {| id := call; message := result |} c2 Ht Hs eq_refl)
      as (G1 & G2 & G3).
    done.
  - destruct (IpcServer.error_message err) as [text| |].
    + cbn [snd fst map run fold_left IpcServer.topic IpcServer.data]. unfold step.
      rewrite Hmsgs, Hid.
      destruct (handlers_on_error name msgs Hin) as [hs ->].
      destruct (first_reply_clears msgs name (midx c1) (length (promises c1)) (next_timer c1)
                  HReject hs {| id := call; message := text |} c2 Ht Hs eq_refl)
        as (G1 & G2 & G3).
      done.
    + done.
    + done.
Qed.


(** *** Instances *)

Lemma pending_call_keeps_its_timer_witness :
  pendings (snd (invoke "getMessage" [] (connect ["getMessage"]))) !! "getMessage.0"
  = Some {| promise := 0; timerID := 0 |}
  /\ timers (snd (invoke "getMessage" [] (connect ["getMessage"]))) !! 0
     = Some {| timer_call := "getMessage.0"; timer_promise := 0 |}.
Proof.
  apply (pending_call_keeps_its_timer ["getMessage"] [] "getMessage" [] []).
  reflexivity.
Defined.

Lemma expired_call_stays_in_pendings_witness :
  promise_state
    (step (snd (invoke "getMessage" [] (connect ["getMessage"]))) (TimerFires 0)) 0
  = Rejected (TimeoutError "getMessage.0" "IPC message dispatch timeout")
  /\ timers (step (snd (invoke "getMessage" [] (connect ["getMessage"]))) (TimerFires 0)) !! 0
     = None
  /\ pendings
       (run [Invoke "getMessage" []; TimerFires 1]
          (step (snd (invoke "getMessage" [] (connect ["getMessage"]))) (TimerFires 0)))
       !! "getMessage.0"
     = Some {| promise := 0; timerID := 0 |}.
Proof.
  apply (expired_call_stays_in_pendings ["getMessage"] [] "getMessage" [] []
           [Invoke "getMessage" []; TimerFires 1]).
  - reflexivity.
  - reflexivity.
Defined.

Lemma unknown_id_is_ignored_witness :
  step (connect ["getMessage"])
    (Receive "message.getMessage" {| id := "getMessage.7"; message := PNull |})
  = connect ["getMessage"]
  /\ (inherited "getMessage.7" = false ->
      fst (dispatch (handlers_on "message.getMessage" ["getMessage"])
             {| id := "getMessage.7"; message := PNull |} (connect ["getMessage"]))
      = Normal tt)
  /\ (inherited "getMessage.7" = true ->
      (0 < length (handlers_on "message.getMessage" ["getMessage"]))%nat ->
      fst (dispatch (handlers_on "message.getMessage" ["getMessage"])
             {| id := "getMessage.7"; message := PNull |} (connect ["getMessage"]))
      = Throw NativeTypeError).
Proof.
  apply (unknown_id_is_ignored (connect ["getMessage"]) "message.getMessage"
           {| id := "getMessage.7"; message := PNull |}).
  reflexivity.
Defined.

Lemma response_clears_the_call_witness :
  (pendings (step (snd (invoke "getMessage" [] (connect ["getMessage"])))
               (Receive "message.getMessage" {| id := "getMessage.0"; message := PStr "hi" |}))
     !! "getMessage.0" = None
   /\ timers (step (snd (invoke "getMessage" [] (connect ["getMessage"])))
                (Receive "message.getMessage" {| id := "getMessage.0"; message := PStr "hi" |}))
        !! 0 = None
   /\ promise_state
        (step (snd (invoke "getMessage" [] (connect ["getMessage"])))
           (Receive "message.getMessage" {| id := "getMessage.0"; message := PStr "hi" |})) 0
      = Fulfilled (PStr "hi"))
  /\ (pendings (step (snd (invoke "getMessage" [] (connect ["getMessage"])))
                  (Receive "error.getMessage" {| id := "getMessage.0"; message := PStr "hi" |}))
        !! "getMessage.0" = None
      /\ timers (step (snd (invoke "getMessage" [] (connect ["getMessage"])))
                   (Receive "error.getMessage" {| id := "getMessage.0"; message := PStr "hi" |}))
           !! 0 = None
      /\ promise_state
           (step (snd (invoke "getMessage" [] (connect ["getMessage"])))
              (Receive "error.getMessage" {| id := "getMessage.0"; message := PStr "hi" |})) 0
         = Rejected (ErrorText (PStr "hi"))).
Proof.
  apply (response_clears_the_call ["getMessage"] [] "getMessage" [] [] (PStr "hi")).
  - left. reflexivity.
  - reflexivity.
Defined.

Lemma remote_call_round_trip_witness :
  promise_state
    (Terms.deliver
       (snd (IpcServer.on_message "getMessage" (fun _ => IpcServer.Returns (PStr "hi"))
               {| IpcServer.req_id := "getMessage.0"; IpcServer.req_args := IpcServer.ArgArray [] |}
               4))
       (snd (invoke "getMessage" [] (connect ["getMessage"])))) 0
  = Fulfilled (PStr "hi")
  /\ (fst (IpcServer.on_message "getMessage" (fun _ => IpcServer.Returns (PStr "hi"))
             {| IpcServer.req_id := "getMessage.0"; IpcServer.req_args := IpcServer.ArgArray [] |}
             4) = Normal tt ->
      pendings
        (Terms.deliver
           (snd (IpcServer.on_message "getMessage" (fun _ => IpcServer.Returns (PStr "hi"))
                   {| IpcServer.req_id := "getMessage.0";
                      IpcServer.req_args := IpcServer.ArgArray [] |} 4))
           (snd (invoke "getMessage" [] (connect ["getMessage"])))) !! "getMessage.0" = None).
Proof.
  apply (remote_call_round_trip ["getMessage"] [] "getMessage" []
           (fun _ => IpcServer.Returns (PStr "hi"))
           {| IpcServer.req_id := "getMessage.0"; IpcServer.req_args := IpcServer.ArgArray [] |}
           4).
  - left. reflexivity.
  - reflexivity.
Defined.

End IpcClientLaws.

(** ** Events relayed from server to client *)

Module IpcEventsLaws.
Import Wire IpcEvents ListFacts.

Lemma event_topic_inj a b : "event." +:+ a = "event." +:+ b -> a = b.
Proof. intros H. by apply (inj (String.app "event.")) in H. Qed.

Lemma server_emit_repeat serverID events eid message :
  server_emit serverID events eid message
  = repeat {| b_topic := "event." +:+ eid;
              b_data := {| id := serverID; message := message |} |}
           (count_occ string_dec events eid).
Proof.
  unfold server_emit, server_listeners.
  induction events as [|e events IH]; [done|]. cbn [map].
  destruct (string_dec e eid) as [->|Hne].
  - rewrite (filter_cons_true (fun l : string * string => String.eqb (fst l) eid))
      by apply String.eqb_refl.
    rewrite count_occ_cons_eq by done. simpl. by rewrite IH.
  - rewrite (filter_cons_false (fun l : string * string => String.eqb (fst l) eid))
      by (by apply String.eqb_neq).
    rewrite count_occ_cons_neq by done. done.
Qed.

Lemma client_receive_repeat events eid data :
  client_receive events ("event." +:+ eid) data
  = repeat (eid, message data) (count_occ string_dec events eid).
Proof.
  unfold client_receive, client_listeners.
  induction events as [|e events IH]; [done|]. cbn [map].
  destruct (string_dec e eid) as [->|Hne].
  - rewrite (filter_cons_true
      (fun l : string * string => String.eqb (fst l) ("event." +:+ eid)))
      by apply String.eqb_refl.
    rewrite count_occ_cons_eq by done. simpl. by rewrite IH.
  - rewrite (filter_cons_false
      (fun l : string * string => String.eqb (fst l) ("event." +:+ eid))).
    + rewrite count_occ_cons_neq by done. done.
    + apply String.eqb_neq. intros H. by apply event_topic_inj in H.
Qed.

Lemma flat_map_repeat {A B} (f : A -> list B) (a : A) (b : B) k : forall n,
  f a = repeat b k -> flat_map f (repeat a n) = repeat b (n * k).
Proof.
  intros n H. induction n as [|n IH]; [done|]. simpl. rewrite IH, H.
  by rewrite repeat_app.
Qed.

(** X23.  An event other than ['error'] that is emitted on the server
    object is emitted on the client object under the same name and with the
    same message, once for each pair of a listing of the event on the
    server and a listing of it on the client; an event that either side
    does not list does not arrive. *)
Theorem events_are_relayed serverID server_events client_events eid message :
  eid <> "error" ->
  relay serverID server_events client_events eid message
  = repeat (eid, message)
      (count_occ string_dec server_events eid * count_occ string_dec client_events eid).
Proof.
  intros _. unfold relay. rewrite server_emit_repeat. apply flat_map_repeat.
  apply client_receive_repeat.
Qed.


Lemma events_are_relayed_witness :
  relay "db-server" ["ping"; "saved"] ["ping"] "ping" (PStr "now") = [("ping", PStr "now")].
Proof.
  apply (events_are_relayed "db-server" ["ping"; "saved"] ["ping"] "ping" (PStr "now")).
  discriminate.
Defined.

End IpcEventsLaws.
